(** * punynode: Punycode (RFC 3492) and the domain mapper of [src/punynode.ts]

    A shallow embedding of the TypeScript module and the proofs of the
    properties its specification states.

    Conventions of the embedding.
    - A JavaScript string is the list of its UTF-16 code units ([jsstring]);
      [is_string] says that every unit is in [0, 0xFFFF].
    - A JavaScript number is an integer of [Z].  Every number the module
      computes is an integer of magnitude below 2^53, where double
      arithmetic is exact; the division [a / b] is the rational quotient
      ([js_div]) and [Math.floor] is [Qfloor]; [%] is the truncating
      remainder [Z.rem]; [>>] and [<<] go through [toInt32].
      No divisor is 0 where the module divides: [w], [out], [base - t],
      [numPoints] and [delta + skew] are positive at every call.
    - A [throw] is the outcome [Throw e]; a loop that is not structurally
      recursive takes fuel, and [OutOfFuel] is the outcome of running out
      ([encode_total], [decode_total] and [adapt_total] show that it never
      happens with the fuel the definitions pass).
    - [String.fromCodePoint(...array)] passes the array as the arguments of
      one call, and an engine takes a bounded number of arguments:
      [fromCodePoint] is the call on an array within that bound, and a
      statement that such a call returns is made for arrays of at most
      [spread_limit] values. *)

From Stdlib Require Import ZArith List Lia Bool QArith Qround.
From Stdlib Require Strings.String Strings.Ascii.
Import Strings.String.StringSyntax.
Delimit Scope string_scope with string.
Import ListNotations.
Open Scope Z_scope.

(** ** Outcomes *)

(** The three error kinds of [errors], and the [RangeError] that
    [String.fromCodePoint] raises by itself on a value that is no code point. *)
Inductive error : Type :=
| Overflow
| NotBasic
| InvalidInput
| InvalidCodePoint.

Inductive outcome (A : Type) : Type :=
| Ok (a : A)
| Throw (e : error)
| OutOfFuel.

Arguments Ok {A} a.
Arguments Throw {A} e.
Arguments OutOfFuel {A}.

Definition bind {A B : Type} (c : outcome A) (k : A -> outcome B) : outcome B :=
  match c with
  | Ok a => k a
  | Throw e => Throw e
  | OutOfFuel => OutOfFuel
  end.

Declare Scope outcome_scope.
Delimit Scope outcome_scope with outcome.
Notation "x <- c ;; k" := (bind c (fun x => k))
  (at level 61, c at next level, right associativity) : outcome_scope.
Notation "' pat <- c ;; k" := (bind c (fun x => match x with pat => k end))
  (at level 61, pat pattern, c at next level, right associativity) : outcome_scope.
Open Scope outcome_scope.

(** [error(type)]: throws. *)
Definition error_ {A : Type} (type : error) : outcome A := Throw type.

(** ** JavaScript primitives *)

Definition jsstring : Type := list Z.

Definition is_unit (u : Z) : bool := (0 <=? u) && (u <? 65536).
Definition is_string (s : jsstring) : bool := forallb is_unit s.

(** [ToInt32], the conversion the shift operators apply to their operand. *)
Definition toInt32 (x : Z) : Z := (x + 2147483648) mod 4294967296 - 2147483648.

(** [x >> k] and [x << k]. *)
Definition sar (x k : Z) : Z := Z.shiftr (toInt32 x) k.
Definition shl (x k : Z) : Z := toInt32 (Z.shiftl (toInt32 x) k).

(** [a / b] on numbers, and [Math.floor]. *)
Definition js_div (a b : Z) : Q := Qdiv (inject_Z a) (inject_Z b).
Definition Math_floor (x : Q) : Z := Qfloor x.

(** [String.fromCharCode(c)]: the unit [ToUint16(c)]. *)
Definition fromCharCode (c : Z) : Z := c mod 65536.

Definition isHighSurrogate (u : Z) : bool := (55296 <=? u) && (u <=? 56319).
Definition isLowSurrogate (u : Z) : bool := (56320 <=? u) && (u <=? 57343).

(** [String.fromCodePoint(...points)]: a [RangeError] on a value outside
    [0, 0x10FFFF], one unit up to 0xFFFF, a surrogate pair above.  This is
    the call on an array that the engine takes as the arguments of one
    call; above the engine's bound the call itself throws a [RangeError],
    which is no part of this definition (see [spread_limit]). *)
Fixpoint fromCodePoint (points : list Z) : outcome jsstring :=
  match points with
  | [] => Ok []
  | cp :: rest =>
      if (cp <? 0) || (1114111 <? cp) then Throw InvalidCodePoint
      else
        s <- fromCodePoint rest ;;
        if cp <=? 65535 then Ok (cp :: s)
        else Ok (55296 + Z.shiftr (cp - 65536) 10
                   :: 56320 + Z.land (cp - 65536) 1023 :: s)
  end.

(** The number of arguments of one call is bounded by the engine and not
    by the language: JavaScriptCore stops at 65536 arguments, V8 where its
    stack ends (above 100000 arguments on the stack Node.js starts with)
    and SpiderMonkey later still.  [spread_limit] is a length below the
    bound of each of them; [fromCodePoint] is
    [String.fromCodePoint(...points)] on every array of at most
    [spread_limit] values. *)
Definition spread_limit : Z := 65535.

(** [input.lastIndexOf(c)] for a one-unit [c]: the largest index holding
    [c], and -1 when there is none. *)
Fixpoint lastIndexOf_from (s : jsstring) (c : Z) (j found : Z) : Z :=
  match s with
  | [] => found
  | x :: s' => lastIndexOf_from s' c (j + 1) (if x =? c then j else found)
  end.

Definition lastIndexOf (s : jsstring) (c : Z) : Z := lastIndexOf_from s c 0 (-1).

(** [s.split(sep)] for a one-unit separator: never empty. *)
Fixpoint split (sep : Z) (s : jsstring) : list jsstring :=
  match s with
  | [] => [[]]
  | c :: s' =>
      if c =? sep then [] :: split sep s'
      else match split sep s' with
           | hd :: tl => (c :: hd) :: tl
           | [] => [[c]]
           end
  end.

(** [parts.join(sep)]. *)
Fixpoint join (sep : Z) (parts : list jsstring) : jsstring :=
  match parts with
  | [] => []
  | [p] => p
  | p :: rest => p ++ sep :: join sep rest
  end.

(** [output.splice(i, 0, x)]: the start index is clamped to the length. *)
Definition splice_insert (output : list Z) (i x : Z) : list Z :=
  firstn (Z.to_nat i) output ++ x :: skipn (Z.to_nat i) output.

(** [labels.map(callback)] with a callback that may throw: left to right,
    the first throw ends the call. *)
Fixpoint map_throwing {A B : Type} (callback : A -> outcome B) (l : list A)
  : outcome (list B) :=
  match l with
  | [] => Ok []
  | a :: rest =>
      b <- callback a ;;
      bs <- map_throwing callback rest ;;
      Ok (b :: bs)
  end.

(** ** Constants *)

Definition maxInt : Z := 2147483647.
Definition base : Z := 36.
Definition tMin : Z := 1.
Definition tMax : Z := 26.
Definition skew : Z := 38.
Definition damp : Z := 700.
Definition initialBias : Z := 72.
Definition initialN : Z := 128.
Definition delimiter : Z := 45.

(** ** Private utility functions *)

(** [Array.from(str).map(char => char.codePointAt(0) ?? 0)]: the string
    iterator joins a high surrogate and the low surrogate after it into one
    code point and yields every other unit by itself. *)
Fixpoint ucs2decode (str : jsstring) : list Z :=
  match str with
  | [] => []
  | first :: rest =>
      match rest with
      | second :: rest' =>
          if isHighSurrogate first && isLowSurrogate second
          then (first - 55296) * 1024 + (second - 56320) + 65536 :: ucs2decode rest'
          else first :: ucs2decode rest
      | [] => [first]
      end
  end.

Definition basicToDigit (codePoint : Z) : Z :=
  if (codePoint >=? 48) && (codePoint <? 58) then 26 + (codePoint - 48)
  else if (codePoint >=? 65) && (codePoint <? 91) then codePoint - 65
  else if (codePoint >=? 97) && (codePoint <? 123) then codePoint - 97
  else base.

Definition digitToBasic (digit : Z) (flag : bool) : Z :=
  digit + 22 + 75 * (if digit <? 26 then 1 else 0) - shl (if flag then 1 else 0) 5.

(** The loop of [adapt]: [for (; delta > (baseMinusTMin * tMax) >> 1; k += base)]. *)
Fixpoint adapt_loop (fuel : nat) (baseMinusTMin delta k : Z) : outcome (Z * Z) :=
  if delta >? sar (baseMinusTMin * tMax) 1 then
    match fuel with
    | O => OutOfFuel
    | S fuel' =>
        adapt_loop fuel' baseMinusTMin
          (Math_floor (js_div delta baseMinusTMin)) (k + base)
    end
  else Ok (delta, k).

(** Each turn divides [delta] by 35, so its binary length bounds the turns. *)
Definition digits_fuel (x : Z) : nat := S (Z.to_nat (Z.log2 x)).

Definition adapt (delta numPoints : Z) (firstTime : bool) : outcome Z :=
  let k := 0 in
  let delta := if firstTime then Math_floor (js_div delta damp) else sar delta 1 in
  let delta := delta + Math_floor (js_div delta numPoints) in
  let baseMinusTMin := base - tMin in
  '(delta, k) <- adapt_loop (digits_fuel delta) baseMinusTMin delta k ;;
  Ok (Math_floor (Qplus (inject_Z k)
                    (js_div ((baseMinusTMin + 1) * delta) (delta + skew)))).

(** [k <= bias ? tMin : k >= bias + tMax ? tMax : k - bias], the threshold
    expression of [decode] and of [encode]. *)
Definition threshold (k bias : Z) : Z :=
  if k <=? bias then tMin else if k >=? bias + tMax then tMax else k - bias.

(** ** Core API: [decode] *)

(** The loop [for (let j = 0; j < basic; ++j)] over the [basic] first units. *)
Fixpoint decode_basic (prefix : jsstring) (output : list Z) : outcome (list Z) :=
  match prefix with
  | [] => Ok output
  | charCode :: prefix' =>
      if charCode >=? 128 then error_ NotBasic
      else decode_basic prefix' (output ++ [charCode])
  end.

(** The loop [for (let k = base; ; k += base)] that reads one generalized
    variable-length integer.  The cursor [index] is kept as the units not
    read yet, [input.slice(index)]; the result is the new [i] and the units
    left. *)
Fixpoint decode_digits (rest : jsstring) (k i w bias : Z) : outcome (Z * jsstring) :=
  match rest with
  | [] => error_ InvalidInput
  | charCode :: rest' =>
      let digit := basicToDigit charCode in
      if digit >=? base then error_ InvalidInput
      else if digit >? Math_floor (js_div (maxInt - i) w) then error_ Overflow
      else
        let i := i + digit * w in
        let t := threshold k bias in
        if digit <? t then Ok (i, rest')
        else
          let baseMinusT := base - t in
          if w >? Math_floor (js_div maxInt baseMinusT) then error_ Overflow
          else decode_digits rest' (k + base) i (w * baseMinusT) bias
  end.

(** The loop [while (index < inputLength)]. *)
Fixpoint decode_loop (fuel : nat) (rest : jsstring) (n i bias : Z) (output : list Z)
  : outcome (list Z) :=
  match rest with
  | [] => Ok output
  | _ :: _ =>
      match fuel with
      | O => OutOfFuel
      | S fuel' =>
          let oldi := i in
          let w := 1 in
          '(i, rest') <- decode_digits rest base i w bias ;;
          let out := Z.of_nat (length output) + 1 in
          bias <- adapt (i - oldi) out (oldi =? 0) ;;
          if Math_floor (js_div i out) >? maxInt - n then error_ Overflow
          else
            let n := n + Math_floor (js_div i out) in
            let i := Z.rem i out in
            let output := splice_insert output i n in
            decode_loop fuel' rest' n (i + 1) bias output
      end
  end.

Definition decode (input : jsstring) : outcome jsstring :=
  let n := initialN in
  let i := 0 in
  let bias := initialBias in
  let basic := lastIndexOf input delimiter in
  let basic := if basic <? 0 then 0 else basic in
  output <- decode_basic (firstn (Z.to_nat basic) input) [] ;;
  let index := if basic >? 0 then basic + 1 else 0 in
  let rest := skipn (Z.to_nat index) input in
  output <- decode_loop (length rest) rest n i bias output ;;
  fromCodePoint output.

(** The loop [while (index < inputLength)] with the fuel [decode] gives it. *)
Definition decode_run (rest : jsstring) (n i bias : Z) (output : list Z)
  : outcome (list Z) :=
  decode_loop (length rest) rest n i bias output.

(** ** Core API: [encode] *)

Record enc_state : Type := mk_enc {
  enc_n : Z;
  enc_delta : Z;
  enc_bias : Z;
  enc_handledCPCount : Z;
  enc_output : jsstring
}.

(** The loop [for (let k = base; ; k += base)] that writes [q] as a
    generalized variable-length integer, up to its [break]: the result is
    the last [q] and the output. *)
Fixpoint encode_digits (fuel : nat) (k q bias : Z) (output : jsstring)
  : outcome (Z * jsstring) :=
  let t := threshold k bias in
  if q <? t then Ok (q, output)
  else
    match fuel with
    | O => OutOfFuel
    | S fuel' =>
        let qMinusT := q - t in
        let baseMinusT := base - t in
        let output :=
          output ++ [fromCharCode (digitToBasic (t + Z.rem qMinusT baseMinusT) false)] in
        encode_digits fuel' (k + base) (Math_floor (js_div qMinusT baseMinusT)) bias output
    end.

(** The body of the loop [for (const currentValue of codePoints)].
    [handledCPCountPlusOne] is the constant of the enclosing turn of the
    main loop: it is not recomputed when [handledCPCount] goes up. *)
Definition encode_step (currentValue basicLength handledCPCountPlusOne : Z)
  (st : enc_state) : outcome enc_state :=
  let n := enc_n st in
  delta <- (if currentValue <? n then
              let delta := enc_delta st + 1 in
              if delta >? maxInt then error_ Overflow else Ok delta
            else Ok (enc_delta st)) ;;
  if currentValue =? n then
    let handledCPCount := enc_handledCPCount st in
    '(q, output) <- encode_digits (digits_fuel delta) base delta
                      (enc_bias st) (enc_output st) ;;
    let output := output ++ [fromCharCode (digitToBasic q false)] in
    bias <- adapt delta handledCPCountPlusOne (handledCPCount =? basicLength) ;;
    Ok (mk_enc n 0 bias (handledCPCount + 1) output)
  else Ok (mk_enc n delta (enc_bias st) (enc_handledCPCount st) (enc_output st)).

(** The loop [for (const currentValue of codePoints)] of one pass. *)
Fixpoint encode_pass (codePoints : list Z) (basicLength handledCPCountPlusOne : Z)
  (st : enc_state) : outcome enc_state :=
  match codePoints with
  | [] => Ok st
  | currentValue :: codePoints' =>
      st <- encode_step currentValue basicLength handledCPCountPlusOne st ;;
      encode_pass codePoints' basicLength handledCPCountPlusOne st
  end.

(** [codePoints.filter(cp => cp >= n).reduce((min, cp) => Math.min(min, cp), maxInt)]. *)
Definition encode_min (codePoints : list Z) (n : Z) : Z :=
  fold_left (fun min cp => Z.min min cp) (filter (fun cp => cp >=? n) codePoints) maxInt.

(** One turn of the loop [while (handledCPCount < codePoints.length)]. *)
Definition encode_iteration (codePoints : list Z) (basicLength : Z) (st : enc_state)
  : outcome enc_state :=
  let n := enc_n st in
  let delta := enc_delta st in
  let m := encode_min codePoints n in
  let handledCPCountPlusOne := enc_handledCPCount st + 1 in
  if m - n >? Math_floor (js_div (maxInt - delta) handledCPCountPlusOne)
  then error_ Overflow
  else
    let delta := delta + (m - n) * handledCPCountPlusOne in
    let n := m in
    st <- encode_pass codePoints basicLength handledCPCountPlusOne
            (mk_enc n delta (enc_bias st) (enc_handledCPCount st) (enc_output st)) ;;
    Ok (mk_enc (enc_n st + 1) (enc_delta st + 1) (enc_bias st)
          (enc_handledCPCount st) (enc_output st)).

(** The loop [while (handledCPCount < codePoints.length)]. *)
Fixpoint encode_loop (fuel : nat) (codePoints : list Z) (basicLength : Z) (st : enc_state)
  : outcome jsstring :=
  if enc_handledCPCount st <? Z.of_nat (length codePoints) then
    match fuel with
    | O => OutOfFuel
    | S fuel' =>
        st <- encode_iteration codePoints basicLength st ;;
        encode_loop fuel' codePoints basicLength st
    end
  else Ok (enc_output st).

(** The first loop: every code point below 0x80 is pushed as it is. *)
Fixpoint encode_basic (codePoints : list Z) (output : jsstring) : jsstring :=
  match codePoints with
  | [] => output
  | codePoint :: codePoints' =>
      encode_basic codePoints'
        (if codePoint <? 128 then output ++ [fromCharCode codePoint] else output)
  end.

Definition encode (input : jsstring) : outcome jsstring :=
  let codePoints := ucs2decode input in
  let n := initialN in
  let delta := 0 in
  let bias := initialBias in
  let output := encode_basic codePoints [] in
  let basicLength := Z.of_nat (length output) in
  let handledCPCount := basicLength in
  let output := if basicLength >? 0 then output ++ [delimiter] else output in
  encode_loop (length codePoints) codePoints basicLength
    (mk_enc n delta bias handledCPCount output).

(** The state in which [encode] enters its main loop. *)
Definition encode_init (codePoints : list Z) : enc_state :=
  let output := encode_basic codePoints [] in
  let basicLength := Z.of_nat (length output) in
  mk_enc initialN 0 initialBias basicLength
    (if basicLength >? 0 then output ++ [delimiter] else output).

Definition encode_basicLength (codePoints : list Z) : Z :=
  Z.of_nat (length (encode_basic codePoints [])).

(** ** The domain mapper and the facade *)

(** [regexSeparators]: the units of [.], U+3002, U+FF0E and U+FF61. *)
Definition isSeparator (u : Z) : bool :=
  (u =? 46) || (u =? 12290) || (u =? 65294) || (u =? 65377).

(** [domain.replace(regexSeparators, '\x2E')]. *)
Definition replaceSeparators (domain : jsstring) : jsstring :=
  map (fun u => if isSeparator u then 46 else u) domain.

(** The labels [mapDomain] hands to its callback, and the text it puts in
    front of the result. *)
Definition mapDomain_result (domain : jsstring) : jsstring :=
  let parts := split 64 domain in
  if (1 <? length parts)%nat then nth 0 parts [] ++ [64] else [].

Definition mapDomain_labels (domain : jsstring) : list jsstring :=
  let parts := split 64 domain in
  let domain := if (1 <? length parts)%nat then nth 1 parts [] else domain in
  split 46 (replaceSeparators domain).

Definition mapDomain (domain : jsstring) (callback : jsstring -> outcome jsstring)
  : outcome jsstring :=
  let result := mapDomain_result domain in
  let labels := mapDomain_labels domain in
  encoded <- map_throwing callback labels ;;
  Ok (result ++ join 46 encoded).

(** [regexPunycode.test(str)] with [regexPunycode = /^xn--/]. *)
Definition regexPunycode_test (str : jsstring) : bool :=
  match str with
  | c1 :: c2 :: c3 :: c4 :: _ => (c1 =? 120) && (c2 =? 110) && (c3 =? 45) && (c4 =? 45)
  | _ => false
  end.

(** [regexNonASCII.test(str)] with [regexNonASCII = /[^\0-\x7F]/]. *)
Definition regexNonASCII_test (str : jsstring) : bool :=
  existsb (fun u => negb ((0 <=? u) && (u <=? 127))) str.

(** [str.slice(4)]. *)
Definition slice4 (str : jsstring) : jsstring := skipn 4 str.

(** The prefix ["xn--"]. *)
Definition xn_prefix : jsstring := [120; 110; 45; 45].

Definition asciiLower (u : Z) : Z :=
  if (65 <=? u) && (u <=? 90) then u + 32 else u.

Definition toASCII_label (str : jsstring) : outcome jsstring :=
  if regexNonASCII_test str then
    e <- encode str ;; Ok (xn_prefix ++ e)
  else Ok str.

Definition toASCII (input : jsstring) : outcome jsstring :=
  mapDomain input toASCII_label.

Section ToUnicode.

(** [String.prototype.toLowerCase] on a string that has a unit above
    0x7F follows the Unicode case tables of the platform, which are no
    part of the repository: there it is a parameter, the function
    [unicodeToLowerCase] from strings to strings.  On a string of ASCII
    units it maps [A-Z] to [a-z] and nothing else. *)
Variable unicodeToLowerCase : jsstring -> jsstring.

Definition toLowerCase (str : jsstring) : jsstring :=
  if regexNonASCII_test str then unicodeToLowerCase str
  else map asciiLower str.

Definition toUnicode_label (str : jsstring) : outcome jsstring :=
  if regexPunycode_test str then decode (toLowerCase (slice4 str))
  else Ok str.

Definition toUnicode (input : jsstring) : outcome jsstring :=
  mapDomain input toUnicode_label.

End ToUnicode.

(** ASCII text as code units, for the fixtures. *)
Definition units (s : String.string) : jsstring :=
  map (fun a => Z.of_N (Ascii.N_of_ascii a)) (String.list_ascii_of_string s).
Arguments units s%_string.


(** The fixtures of the test suite. *)
Definition manana : jsstring := units "ma" ++ [241] ++ units "ana".
Definition manana_com : jsstring := manana ++ units ".com".
Definition user_facade_com : jsstring := units "user@fa" ++ [231] ++ units "ade.com".

(** A long string on which the round trip fails: U+100080 (the surrogate
    pair DBC0 DC80), 2046 times [a], and U+0080; and what [encode] returns
    on it. *)
Definition overflow_input : jsstring := [56256; 56448] ++ repeat 97 2046 ++ [128].
Definition overflow_encoded : jsstring :=
  repeat 97 2046 ++ units "-qxb51729585s".

(** One [a] more, and [encode] itself throws [Overflow]. *)
Definition too_long_input : jsstring := [56256; 56448] ++ repeat 97 2047 ++ [128].

(** The prefix test as the specification words it: the label starts with
    [xn--], letters compared without case. *)
Definition spec_starts_with_xn (str : jsstring) : bool :=
  match str with
  | c1 :: c2 :: c3 :: c4 :: _ =>
      (asciiLower c1 =? 120) && (asciiLower c2 =? 110) && (c3 =? 45) && (c4 =? 45)
  | _ => false
  end.

(** ** Predicates of the statements *)

(** A basic code point: below 0x80. *)
Definition is_basic (u : Z) : Prop := 0 <= u < 128.

(** A unit of the digit alphabet [encode] writes: [0-9] or [a-z]. *)
Definition is_digit_unit (u : Z) : Prop := 48 <= u <= 57 \/ 97 <= u <= 122.

(** A code point: in [0, 0x10FFFF]. *)
Definition is_code_point (c : Z) : Prop := 0 <= c <= 1114111.

(** The code points [encode] has handled when its pass at threshold [n] has
    gone through [pre] and has [post] to go: those below [n], and those
    equal to [n] in [pre]. *)
Definition handled (n : Z) (pre post : list Z) : list Z :=
  filter (fun c => c <=? n) pre ++ filter (fun c => c <? n) post.

(** What holds of the state of [encode] inside a pass, between [pre] and
    [post], and at the head of the main loop. *)
Definition pass_inv (basicLength handledCPCountPlusOne : Z) (pre post : list Z)
  (st : enc_state) : Prop :=
  enc_handledCPCount st = Z.of_nat (length (handled (enc_n st) pre post)) /\
  0 <= enc_delta st <= maxInt /\
  basicLength <= handledCPCountPlusOne - 1 <= enc_handledCPCount st /\
  Forall is_basic (enc_output st) /\
  handledCPCountPlusOne
  = Z.of_nat (length (filter (fun c => c <? enc_n st) (pre ++ post))) + 1 /\
  (enc_handledCPCount st = handledCPCountPlusOne - 1 \/
   enc_delta st <= Z.of_nat (length (filter (fun c => c <? enc_n st) pre))).

Definition head_inv (codePoints : list Z) (basicLength : Z) (st : enc_state) : Prop :=
  enc_handledCPCount st
  = Z.of_nat (length (filter (fun c => c <? enc_n st) codePoints)) /\
  0 <= enc_delta st /\
  basicLength <= enc_handledCPCount st /\
  Forall is_basic (enc_output st).

(** How the state of [decode], before it reads the next delta, stands to
    the state of [encode] that is about to write it: [decode] holds the
    handled code points in their order, and its position [(n_d, i_d)] is
    [delta] steps before the one at which the next code point goes in. *)
Definition dec_rel (basicLength : Z) (pre post : list Z) (st : enc_state)
  (n_d i_d : Z) (output_d : list Z) : Prop :=
  output_d = handled (enc_n st) pre post /\
  i_d + enc_delta st
  = (enc_n st - n_d) * (enc_handledCPCount st + 1)
    + Z.of_nat (length (filter (fun c => c <=? enc_n st) pre)) /\
  (i_d =? 0) = (enc_handledCPCount st =? basicLength) /\
  0 <= i_d /\
  128 <= n_d <= enc_n st /\
  enc_bias st <= 213.

(** The states in which [encode] reaches the head of its main loop. *)
Inductive loop_head (codePoints : list Z) : enc_state -> Prop :=
| loop_head_init : loop_head codePoints (encode_init codePoints)
| loop_head_next (st st' : enc_state) :
    loop_head codePoints st ->
    enc_handledCPCount st < Z.of_nat (length codePoints) ->
    encode_iteration codePoints (encode_basicLength codePoints) st = Ok st' ->
    loop_head codePoints st'.

(** ** The bias adaptation as the specification words it

    [floor(a / b)] is the floor of the rational quotient; the [while] loop
    is the relation between the values of [delta] and [k] on entry and on
    exit. *)

Definition floor_quot (a b : Z) : Z := Qfloor (Qdiv (inject_Z a) (inject_Z b)).

Inductive adapt_while : Z -> Z -> Z -> Z -> Prop :=
| adapt_while_exit (delta k : Z) :
    delta <= floor_quot ((base - tMin) * tMax) 2 ->
    adapt_while delta k delta k
| adapt_while_turn (delta k delta' k' : Z) :
    delta > floor_quot ((base - tMin) * tMax) 2 ->
    adapt_while (floor_quot delta (base - tMin)) (k + base) delta' k' ->
    adapt_while delta k delta' k'.

Definition adapt_spec (delta numPoints : Z) (firstTime : bool) (result : Z) : Prop :=
  let delta1 := if firstTime then floor_quot delta 700 else floor_quot delta 2 in
  let delta2 := delta1 + floor_quot delta1 numPoints in
  exists delta3 k,
    adapt_while delta2 0 delta3 k /\
    result = Qfloor (Qplus (inject_Z k)
                       (Qdiv (inject_Z ((base - tMin + 1) * delta3))
                             (inject_Z (delta3 + skew)))).


(** ** The exported [ucs2] object, and more predicates *)

(** [punycode.ucs2.encode]: [(codePoints) => String.fromCodePoint(...codePoints)];
    [punycode.ucs2.decode] is [ucs2decode] itself. *)
Definition ucs2_encode (codePoints : list Z) : outcome jsstring :=
  fromCodePoint codePoints.

(** A Unicode scalar value: a code point that is no surrogate. *)
Definition is_scalar_value (c : Z) : Prop :=
  0 <= c <= 1114111 /\ ~ (55296 <= c <= 57343).

(** A unit [basicToDigit] takes for a digit: [0-9], [A-Z] or [a-z]. *)
Definition is_alnum_unit (u : Z) : Prop :=
  48 <= u <= 57 \/ 65 <= u <= 90 \/ 97 <= u <= 122.

(** An upper-case ASCII letter. *)
Definition is_upper_unit (u : Z) : Prop := 65 <= u <= 90.

(** At the head of the main loop of [encode], [n] is at least [initialN]
    and [delta] is at most the number of handled code points. *)
Definition head_bound (st : enc_state) : Prop :=
  128 <= enc_n st /\ enc_delta st <= enc_handledCPCount st.

(** A label that goes through [toASCII] and back through [toUnicode]
    unchanged: an ASCII label that does not start with [xn--], or a label
    with a unit above 0x7F, no upper-case ASCII letter and at most 1927 code
    points. *)
Definition roundtrip_label (label : jsstring) : Prop :=
  (Forall is_basic label /\ regexPunycode_test label = false) \/
  (regexNonASCII_test label = true /\
   Forall (fun u => ~ is_upper_unit u) label /\
   Z.of_nat (length (ucs2decode label)) <= 1927).


(** * Arithmetic of the embedding *)

Lemma Qfloor_div (a b : Z) : 0 < b -> Qfloor (Qdiv (inject_Z a) (inject_Z b)) = a / b.
Proof.
  intros Hb. destruct b as [|p|p]; try lia.
  unfold Qdiv, Qinv, inject_Z, Qmult, Qfloor. simpl.
  rewrite Z.mul_1_r. reflexivity.
Qed.

Lemma Qfloor_plus_div (k a b : Z) :
  0 < b -> Qfloor (Qplus (inject_Z k) (Qdiv (inject_Z a) (inject_Z b))) = k + a / b.
Proof.
  intros Hb. destruct b as [|p|p]; try lia.
  unfold Qdiv, Qinv, inject_Z, Qmult, Qplus, Qfloor. simpl.
  rewrite Z.mul_1_r.
  replace (k * Z.pos p + a * 1) with (a + k * Z.pos p) by lia.
  rewrite Z.div_add by lia. lia.
Qed.

Lemma Math_floor_div (a b : Z) : 0 < b -> Math_floor (js_div a b) = a / b.
Proof. apply Qfloor_div. Qed.

Lemma floor_quot_div (a b : Z) : 0 < b -> floor_quot a b = a / b.
Proof. apply Qfloor_div. Qed.

Lemma toInt32_id (x : Z) : -2147483648 <= x < 2147483648 -> toInt32 x = x.
Proof. intros H. unfold toInt32. rewrite Z.mod_small; lia. Qed.

Lemma sar_1 (x : Z) : -2147483648 <= x < 2147483648 -> sar x 1 = x / 2.
Proof.
  intros H. unfold sar. rewrite toInt32_id by exact H.
  rewrite Z.shiftr_div_pow2 by lia. reflexivity.
Qed.

Lemma digits_fuel_spec (x : Z) : x < 2 ^ Z.of_nat (digits_fuel x).
Proof.
  unfold digits_fuel. rewrite Nat2Z.inj_succ, Z2Nat.id by apply Z.log2_nonneg.
  destruct (Z.le_gt_cases x 0) as [H|H].
  - assert (0 < 2 ^ Z.succ (Z.log2 x)); [|lia].
    apply Z.pow_pos_nonneg; [lia|]. pose proof (Z.log2_nonneg x). lia.
  - apply Z.log2_spec. exact H.
Qed.

Lemma threshold_range (k bias : Z) : 1 <= threshold k bias <= 26.
Proof.
  unfold threshold, tMin, tMax.
  destruct (Z.leb_spec k bias); [lia|].
  destruct (k >=? bias + 26) eqn:E; [lia|].
  rewrite Z.geb_leb in E. apply Z.leb_gt in E. lia.
Qed.

(** * The digit alphabet *)

Lemma digitToBasic_lower (d : Z) :
  0 <= d < 36 ->
  fromCharCode (digitToBasic d false) = (if d <? 26 then d + 97 else d + 22).
Proof.
  intros H. unfold digitToBasic, fromCharCode.
  change (shl 0 5) with 0.
  destruct (Z.ltb_spec d 26); rewrite Z.mod_small; lia.
Qed.

Lemma digitToBasic_is_digit (d : Z) :
  0 <= d < 36 -> is_digit_unit (fromCharCode (digitToBasic d false)).
Proof.
  intros H. rewrite digitToBasic_lower by exact H. unfold is_digit_unit.
  destruct (Z.ltb_spec d 26); lia.
Qed.

Lemma basicToDigit_digitToBasic (d : Z) :
  0 <= d < 36 -> basicToDigit (fromCharCode (digitToBasic d false)) = d.
Proof.
  intros H. rewrite digitToBasic_lower by exact H. unfold basicToDigit.
  destruct (Z.ltb_spec d 26).
  - replace ((d + 97 >=? 48) && (d + 97 <? 58)) with false by (symmetry; apply andb_false_iff; right; lia).
    replace ((d + 97 >=? 65) && (d + 97 <? 91)) with false by (symmetry; apply andb_false_iff; right; lia).
    replace ((d + 97 >=? 97) && (d + 97 <? 123)) with true by (symmetry; apply andb_true_iff; lia).
    lia.
  - replace ((d + 22 >=? 48) && (d + 22 <? 58)) with true by (symmetry; apply andb_true_iff; lia).
    lia.
Qed.

(** * [adapt] *)

Lemma adapt_bound : sar ((base - tMin) * tMax) 1 = 455.
Proof. reflexivity. Qed.

Lemma adapt_bound_spec : floor_quot ((base - tMin) * tMax) 2 = 455.
Proof. reflexivity. Qed.

Lemma adapt_loop_while (fuel : nat) :
  forall delta k,
    delta < 2 ^ Z.of_nat fuel ->
    exists delta' k',
      adapt_loop fuel (base - tMin) delta k = Ok (delta', k') /\
      adapt_while delta k delta' k'.
Proof.
  induction fuel as [|fuel IH]; intros delta k Hd.
  - cbn [adapt_loop]. rewrite adapt_bound. change (2 ^ Z.of_nat 0) with 1 in Hd.
    destruct (Z.gtb_spec delta 455); [lia|].
    exists delta, k. split; [reflexivity|].
    apply adapt_while_exit. rewrite adapt_bound_spec. lia.
  - cbn [adapt_loop]. rewrite adapt_bound.
    destruct (Z.gtb_spec delta 455) as [Hgt|Hle].
    + rewrite Math_floor_div by (unfold base, tMin; lia).
      destruct (IH (delta / (base - tMin)) (k + base)) as (d' & k' & He & Hw).
      { rewrite Nat2Z.inj_succ, Z.pow_succ_r in Hd by lia.
        change (base - tMin) with 35.
        apply Z.div_lt_upper_bound; lia. }
      exists d', k'. split; [exact He|].
      apply adapt_while_turn.
      * rewrite adapt_bound_spec. lia.
      * rewrite floor_quot_div by (unfold base, tMin; lia). exact Hw.
    + exists delta, k. split; [reflexivity|].
      apply adapt_while_exit. rewrite adapt_bound_spec. lia.
Qed.

Lemma adapt_while_fun (delta k d1 k1 : Z) :
  adapt_while delta k d1 k1 ->
  forall d2 k2, adapt_while delta k d2 k2 -> d2 = d1 /\ k2 = k1.
Proof.
  induction 1 as [delta k Hle|delta k d1 k1 Hgt Hw IH]; intros d2 k2 H2.
  - inversion H2; subst; [split; reflexivity|lia].
  - inversion H2; subst; [lia|]. apply IH. assumption.
Qed.

(** The loop leaves [delta] at most 455, and makes at most [j] turns from
    a [delta] below [456 * 35^j]. *)
Lemma adapt_while_bounds (delta k d' k' : Z) :
  adapt_while delta k d' k' ->
  d' <= 455 /\ (0 <= delta -> 0 <= d') /\ k <= k' /\
  forall j : nat, delta < 456 * 35 ^ Z.of_nat j -> k' <= k + 36 * Z.of_nat j.
Proof.
  induction 1 as [delta k Hle|delta k d' k' Hgt Hw IH].
  - rewrite adapt_bound_spec in Hle. repeat split; try lia.
  - rewrite adapt_bound_spec in Hgt.
    rewrite floor_quot_div in IH by (unfold base, tMin; lia).
    change (base - tMin) with 35 in IH. change base with 36 in IH.
    destruct IH as (H1 & H2 & H3 & H4).
    repeat split; try lia.
    + intros Hd. apply H2. apply Z.div_pos; lia.
    + intros j Hj. destruct j as [|j].
      * simpl in Hj. lia.
      * rewrite Nat2Z.inj_succ, Z.pow_succ_r in Hj by lia.
        specialize (H4 j).
        assert (delta / 35 < 456 * 35 ^ Z.of_nat j).
        { apply Z.div_lt_upper_bound; lia. }
        lia.
Qed.

Lemma adapt_first_step (delta numPoints : Z) (firstTime : bool) :
  0 <= delta <= maxInt -> 0 < numPoints ->
  (if firstTime then Math_floor (js_div delta damp) else sar delta 1)
  = (if firstTime then floor_quot delta 700 else floor_quot delta 2) /\
  0 <= (if firstTime then floor_quot delta 700 else floor_quot delta 2) <= delta / 2.
Proof.
  unfold maxInt. intros Hd Hn. destruct firstTime.
  - unfold damp. rewrite Math_floor_div, floor_quot_div by lia. split; [reflexivity|].
    split; [apply Z.div_pos; lia|].
    apply Z.div_le_lower_bound; [lia|].
    assert (700 * (delta / 700) <= delta) by (apply Z.mul_div_le; lia).
    lia.
  - rewrite sar_1, floor_quot_div by lia. split; [reflexivity|].
    split; [apply Z.div_pos; lia|lia].
Qed.

Lemma adapt_correct (delta numPoints : Z) (firstTime : bool) :
  0 <= delta <= maxInt -> 0 < numPoints ->
  exists result,
    adapt delta numPoints firstTime = Ok result /\
    adapt_spec delta numPoints firstTime result /\
    0 <= result <= 213.
Proof.
  intros Hd Hn.
  destruct (adapt_first_step delta numPoints firstTime Hd Hn) as (E1 & H1).
  unfold adapt, adapt_spec. rewrite E1.
  set (delta1 := if firstTime then floor_quot delta 700 else floor_quot delta 2) in *.
  rewrite Math_floor_div by exact Hn. rewrite floor_quot_div by exact Hn.
  set (delta2 := delta1 + delta1 / numPoints).
  assert (H2 : 0 <= delta2 <= delta).
  { unfold delta2. assert (0 <= delta1 / numPoints <= delta1).
    { split; [apply Z.div_pos; lia|].
      apply Z.div_le_upper_bound; [lia|]. nia. }
    assert (2 * (delta / 2) <= delta) by (apply Z.mul_div_le; lia). lia. }
  destruct (adapt_loop_while (digits_fuel delta2) delta2 0 (digits_fuel_spec delta2))
    as (d3 & k & Hloop & Hwhile).
  rewrite Hloop. cbn [bind].
  destruct (adapt_while_bounds _ _ _ _ Hwhile) as (B1 & B2 & B3 & B4).
  specialize (B2 (proj1 H2)). specialize (B4 5%nat).
  assert (Hk : k <= 180).
  { unfold maxInt in Hd. change (456 * 35 ^ Z.of_nat 5) with 23949975000 in B4. lia. }
  assert (Hpos : 0 < d3 + skew) by (unfold skew; lia).
  exists (k + ((base - tMin + 1) * d3) / (d3 + skew)). split; [|split].
  - unfold Math_floor, js_div. rewrite Qfloor_plus_div by exact Hpos. reflexivity.
  - exists d3, k. split; [exact Hwhile|].
    rewrite Qfloor_plus_div by exact Hpos. reflexivity.
  - change (base - tMin + 1) with 36. unfold skew in *.
    assert (0 <= 36 * d3 / (d3 + 38)) by (apply Z.div_pos; lia).
    assert (36 * d3 / (d3 + 38) < 34) by (apply Z.div_lt_upper_bound; lia).
    lia.
Qed.

(** Past the first time, [numPoints] does not matter once it is above half
    of [delta]: the quotient [floor(delta / numPoints)] is 0. *)
Lemma adapt_numPoints (delta numPoints1 numPoints2 : Z) :
  0 <= delta <= maxInt ->
  delta / 2 < numPoints1 -> delta / 2 < numPoints2 ->
  adapt delta numPoints1 false = adapt delta numPoints2 false.
Proof.
  unfold maxInt. intros Hd H1 H2. unfold adapt. cbv beta iota zeta.
  rewrite sar_1 by lia.
  assert (0 <= delta / 2) by (apply Z.div_pos; lia).
  rewrite !Math_floor_div by lia.
  rewrite (Z.div_small (delta / 2) numPoints1) by lia.
  rewrite (Z.div_small (delta / 2) numPoints2) by lia. reflexivity.
Qed.

Lemma adapt_spec_fun (delta numPoints : Z) (firstTime : bool) (r1 r2 : Z) :
  adapt_spec delta numPoints firstTime r1 ->
  adapt_spec delta numPoints firstTime r2 ->
  r1 = r2.
Proof.
  unfold adapt_spec. intros (d1 & k1 & W1 & E1) (d2 & k2 & W2 & E2).
  destruct (adapt_while_fun _ _ _ _ W1 _ _ W2) as [-> ->]. congruence.
Qed.

(** C8: [adapt] returns what the formula of the specification gives, and
    nothing else: [delta] divided by 700 the first time and halved
    otherwise, increased by its quotient by [numPoints], divided by
    [base - tMin] while it is above [floor((base - tMin) * tMax / 2)], with
    [k] going up by [base] each time from 0, and the result
    [floor(k + (base - tMin + 1) * delta / (delta + skew))].  The arguments
    are those [encode] and [decode] call it with: a [delta] from 0 to
    [maxInt], where [>> 1] halves, and at least one point. *)
Theorem adapt_meets_spec (delta numPoints : Z) (firstTime : bool) :
  0 <= delta <= maxInt -> 0 < numPoints ->
  exists result,
    adapt delta numPoints firstTime = Ok result /\
    adapt_spec delta numPoints firstTime result /\
    forall r, adapt_spec delta numPoints firstTime r -> r = result.
Proof.
  intros Hd Hn.
  destruct (adapt_correct delta numPoints firstTime Hd Hn) as (result & Ha & Hs & _).
  exists result. split; [exact Ha|]. split; [exact Hs|].
  intros r Hr. exact (adapt_spec_fun delta numPoints firstTime r result Hr Hs).
Qed.

Lemma adapt_meets_spec_witness :
  exists result,
    adapt 1000 2 false = Ok result /\
    adapt_spec 1000 2 false result /\
    forall r, adapt_spec 1000 2 false r -> r = result.
Proof.
  apply (adapt_meets_spec 1000 2 false); unfold maxInt; lia.
Defined.


(** * Lists *)

Lemma filter_length_lt {A : Type} (f : A -> bool) (l : list A) :
  (length (filter f l) < length l)%nat -> exists c, In c l /\ f c = false.
Proof.
  induction l as [|a l IH]; simpl; intros H; [lia|].
  destruct (f a) eqn:E.
  - simpl in H. destruct IH as (c & Hc & Hf); [lia|]. exists c. auto.
  - exists a. auto.
Qed.

Lemma filter_length_all {A : Type} (f : A -> bool) (l : list A) :
  (length l <= length (filter f l))%nat -> filter f l = l.
Proof.
  induction l as [|a l IH]; simpl; intros H; [reflexivity|].
  pose proof (filter_length_le f l) as Hle.
  destruct (f a); simpl in H; [f_equal; apply IH; lia | lia].
Qed.

Lemma filter_length_in_lt {A : Type} (f g : A -> bool) (l : list A) (c : A) :
  (forall x, f x = true -> g x = true) ->
  In c l -> f c = false -> g c = true ->
  (length (filter f l) < length (filter g l))%nat.
Proof.
  intros Hfg. induction l as [|a l IH]; simpl; intros Hin Hf Hg; [contradiction|].
  assert (Hle : (length (filter f l) <= length (filter g l))%nat).
  { clear -Hfg. induction l as [|x l IH]; simpl; [lia|].
    destruct (f x) eqn:E; [rewrite (Hfg x E); simpl; lia|].
    destruct (g x); simpl; lia. }
  destruct Hin as [->|Hin].
  - rewrite Hf, Hg. simpl. lia.
  - specialize (IH Hin Hf Hg).
    destruct (f a) eqn:E; [rewrite (Hfg a E); simpl; lia|].
    destruct (g a); simpl; lia.
Qed.

Lemma fold_min_le (l : list Z) (a : Z) :
  fold_left (fun min cp => Z.min min cp) l a <= a /\
  forall c, In c l -> fold_left (fun min cp => Z.min min cp) l a <= c.
Proof.
  revert a. induction l as [|x l IH]; intros a; simpl.
  - split; [lia|]. intros c [].
  - destruct (IH (Z.min a x)) as [H1 H2]. split; [lia|].
    intros c [->|Hc]; [lia|]. apply H2. exact Hc.
Qed.

Lemma fold_min_in (l : list Z) (a : Z) :
  fold_left (fun min cp => Z.min min cp) l a = a \/
  In (fold_left (fun min cp => Z.min min cp) l a) l.
Proof.
  revert a. induction l as [|x l IH]; intros a; simpl; [left; reflexivity|].
  destruct (IH (Z.min a x)) as [H|H].
  - rewrite H. destruct (Z.min_spec a x) as [[_ ->]|[_ ->]]; auto.
  - auto.
Qed.

(** * The minimum of a pass *)

Lemma encode_min_spec (codePoints : list Z) (n c0 : Z) :
  Forall (fun c => c <= maxInt) codePoints ->
  In c0 codePoints -> n <= c0 ->
  In (encode_min codePoints n) codePoints /\
  n <= encode_min codePoints n /\
  forall c, In c codePoints -> n <= c -> encode_min codePoints n <= c.
Proof.
  intros Hmax Hin Hle. unfold encode_min.
  set (cands := filter (fun cp => cp >=? n) codePoints).
  assert (Hc : forall c, In c cands <-> In c codePoints /\ n <= c).
  { intros c. unfold cands. rewrite filter_In, Z.geb_leb, Z.leb_le. reflexivity. }
  destruct (fold_min_le cands maxInt) as [Hm1 Hm2].
  assert (Hlow : forall c, In c codePoints -> n <= c ->
                   fold_left (fun min cp => Z.min min cp) cands maxInt <= c).
  { intros c H1 H2. apply Hm2, Hc. auto. }
  destruct (fold_min_in cands maxInt) as [E|Hmem].
  - rewrite E. specialize (Hlow c0 Hin Hle). rewrite E in Hlow.
    rewrite Forall_forall in Hmax. specialize (Hmax c0 Hin).
    assert (c0 = maxInt) by lia. subst c0.
    split; [exact Hin|split; [exact Hle|]].
    intros c H1 H2. specialize (Hm2 c). rewrite E in Hm2. apply Hm2, Hc. auto.
  - apply Hc in Hmem. destruct Hmem. auto.
Qed.

(** * The digits of one delta *)

Lemma is_digit_unit_basic (u : Z) : is_digit_unit u -> is_basic u.
Proof. unfold is_digit_unit, is_basic. lia. Qed.

Lemma encode_digits_spec (fuel : nat) :
  forall k q bias output,
    0 <= q < 2 ^ Z.of_nat fuel ->
    exists qf ds,
      encode_digits fuel k q bias output = Ok (qf, output ++ ds) /\
      0 <= qf < 26 /\ Forall is_digit_unit ds.
Proof.
  induction fuel as [|fuel IH]; intros k q bias output Hq;
    pose proof (threshold_range k bias) as Ht.
  - change (2 ^ Z.of_nat 0) with 1 in Hq. cbn [encode_digits].
    destruct (Z.ltb_spec q (threshold k bias)); [|lia].
    exists q, []. rewrite app_nil_r. repeat split; try lia. constructor.
  - cbn [encode_digits].
    destruct (Z.ltb_spec q (threshold k bias)) as [Hlt|Hge].
    + exists q, []. rewrite app_nil_r. repeat split; try lia. constructor.
    + set (t := threshold k bias) in *.
      assert (Hb : 10 <= base - t <= 35) by (unfold base; lia).
      rewrite Math_floor_div by lia.
      rewrite Z.rem_mod_nonneg by lia.
      destruct (IH (k + base) ((q - t) / (base - t)) bias
                  (output ++ [fromCharCode (digitToBasic (t + (q - t) mod (base - t)) false)]))
        as (qf & ds & He & Hqf & Hds).
      { split; [apply Z.div_pos; lia|].
        rewrite Nat2Z.inj_succ, Z.pow_succ_r in Hq by lia.
        apply Z.div_lt_upper_bound; [lia|]. nia. }
      exists qf, (fromCharCode (digitToBasic (t + (q - t) mod (base - t)) false) :: ds).
      split; [|split; [exact Hqf|]].
      * rewrite He, <- app_assoc. reflexivity.
      * constructor; [|exact Hds].
        apply digitToBasic_is_digit.
        pose proof (Z.mod_pos_bound (q - t) (base - t)). unfold base in *. lia.
Qed.

(** * The handled code points *)

Lemma handled_nil_l (n : Z) (post : list Z) :
  handled n [] post = filter (fun c => c <? n) post.
Proof. reflexivity. Qed.

Lemma handled_nil_r (n : Z) (pre : list Z) :
  handled n pre [] = filter (fun c => c <=? n) pre.
Proof. unfold handled. simpl. apply app_nil_r. Qed.

Lemma handled_below (n c : Z) (pre post : list Z) :
  c < n -> handled n (pre ++ [c]) post = handled n pre (c :: post).
Proof.
  intros H. unfold handled. rewrite filter_app. simpl.
  destruct (Z.leb_spec c n); [|lia]. destruct (Z.ltb_spec c n); [|lia].
  rewrite <- app_assoc. reflexivity.
Qed.

Lemma handled_above (n c : Z) (pre post : list Z) :
  n < c -> handled n (pre ++ [c]) post = handled n pre (c :: post).
Proof.
  intros H. unfold handled. rewrite filter_app. simpl.
  destruct (Z.leb_spec c n); [lia|]. destruct (Z.ltb_spec c n); [lia|].
  rewrite app_nil_r. reflexivity.
Qed.

Lemma handled_equal (n : Z) (pre post : list Z) :
  handled n pre (n :: post) = handled n pre post /\
  handled n (pre ++ [n]) post
  = filter (fun c => c <=? n) pre ++ n :: filter (fun c => c <? n) post.
Proof.
  unfold handled. rewrite filter_app. simpl.
  rewrite Z.ltb_irrefl, Z.leb_refl. rewrite <- app_assoc. split; reflexivity.
Qed.

(** * One code point of a pass *)

Lemma filter_snoc_length (f : Z -> bool) (pre : list Z) (c : Z) :
  Z.of_nat (length (filter f (pre ++ [c])))
  = Z.of_nat (length (filter f pre)) + (if f c then 1 else 0).
Proof.
  rewrite filter_app, length_app. cbn [filter]. destruct (f c); cbn [length]; lia.
Qed.

Lemma encode_step_inv (basicLength hp1 : Z) (pre post : list Z) (c : Z) (st : enc_state) :
  pass_inv basicLength hp1 pre (c :: post) st ->
  encode_step c basicLength hp1 st = Throw Overflow \/
  exists st',
    encode_step c basicLength hp1 st = Ok st' /\
    pass_inv basicLength hp1 (pre ++ [c]) post st' /\
    enc_n st' = enc_n st /\
    exists ds, enc_output st' = enc_output st ++ ds /\ Forall is_digit_unit ds.
Proof.
  intros (Hh & Hd & Hb & Ho & Hp & Hs). unfold encode_step.
  assert (Hp' : hp1 = Z.of_nat (length (filter (fun x => x <? enc_n st)
                                          ((pre ++ [c]) ++ post))) + 1).
  { rewrite <- app_assoc. exact Hp. }
  pose proof (filter_snoc_length (fun x => x <? enc_n st) pre c) as Hsnoc.
  cbv beta in Hsnoc.
  destruct (Z.ltb_spec c (enc_n st)) as [Hlt|Hge].
  - (* below n: one more step of delta *)
    cbn zeta. destruct (Z.gtb_spec (enc_delta st + 1) maxInt) as [Hov|Hok].
    + left. reflexivity.
    + right. cbn [bind]. destruct (Z.eqb_spec c (enc_n st)) as [->|_]; [lia|].
      eexists. split; [reflexivity|]. split; [|split; [reflexivity|]].
      * unfold pass_inv. cbn [enc_n enc_delta enc_handledCPCount enc_output].
        rewrite handled_below by exact Hlt.
        repeat split; try (assumption || lia).
      * exists []. cbn. rewrite app_nil_r. split; [reflexivity|constructor].
  - cbn [bind]. destruct (Z.eqb_spec c (enc_n st)) as [->|Hne].
    + (* equal to n: the delta is written *)
      destruct (encode_digits_spec (digits_fuel (enc_delta st)) base (enc_delta st)
                  (enc_bias st) (enc_output st)) as (qf & ds & He & Hqf & Hds).
      { split; [lia|apply digits_fuel_spec]. }
      destruct (adapt_correct (enc_delta st) hp1
                  (enc_handledCPCount st =? basicLength)) as (bias' & Ha & _);
        [lia|lia|].
      right. rewrite He. cbn [bind]. rewrite Ha. cbn [bind].
      eexists. split; [reflexivity|]. split; [|split; [reflexivity|]].
      * unfold pass_inv. cbn [enc_n enc_delta enc_handledCPCount enc_output].
        destruct (handled_equal (enc_n st) pre post) as [E1 E2].
        rewrite E1 in Hh. unfold handled in Hh. rewrite E2.
        rewrite length_app in *. cbn [length]. unfold maxInt.
        repeat split; try lia.
        rewrite Forall_app. split; [rewrite Forall_app; split; [exact Ho|]|].
        -- eapply Forall_impl; [|exact Hds]. apply is_digit_unit_basic.
        -- constructor; [|constructor].
           apply is_digit_unit_basic, digitToBasic_is_digit. lia.
      * cbn [enc_output]. exists (ds ++ [fromCharCode (digitToBasic qf false)]).
        rewrite app_assoc. split; [reflexivity|].
        rewrite Forall_app. split; [exact Hds|].
        constructor; [|constructor]. apply digitToBasic_is_digit. lia.
    + (* above n: nothing *)
      right. eexists. split; [reflexivity|]. split; [|split; [reflexivity|]].
      * unfold pass_inv. cbn [enc_n enc_delta enc_handledCPCount enc_output].
        rewrite handled_above by lia.
        repeat split; try (assumption || lia).
      * exists []. cbn. rewrite app_nil_r. split; [reflexivity|constructor].
Qed.

(** * One pass *)

Lemma encode_pass_inv (basicLength hp1 : Z) (post : list Z) :
  forall pre st,
    pass_inv basicLength hp1 pre post st ->
    encode_pass post basicLength hp1 st = Throw Overflow \/
    exists st',
      encode_pass post basicLength hp1 st = Ok st' /\
      pass_inv basicLength hp1 (pre ++ post) [] st' /\
      enc_n st' = enc_n st /\
      exists ds, enc_output st' = enc_output st ++ ds /\ Forall is_digit_unit ds.
Proof.
  induction post as [|c post IH]; intros pre st Hinv.
  - right. exists st. rewrite app_nil_r.
    split; [reflexivity|]. split; [exact Hinv|]. split; [reflexivity|].
    exists []. rewrite app_nil_r. split; [reflexivity|constructor].
  - cbn [encode_pass].
    destruct (encode_step_inv basicLength hp1 pre post c st Hinv)
      as [E|(st1 & E & Hinv1 & Hn1 & ds1 & Ho1 & Hds1)]; rewrite E; cbn [bind].
    + left. reflexivity.
    + destruct (IH (pre ++ [c]) st1 Hinv1)
        as [E2|(st2 & E2 & Hinv2 & Hn2 & ds2 & Ho2 & Hds2)]; rewrite E2.
      * left. reflexivity.
      * right. exists st2. rewrite <- app_assoc in Hinv2.
        split; [reflexivity|]. split; [exact Hinv2|]. split; [congruence|].
        exists (ds1 ++ ds2). rewrite Ho2, Ho1, app_assoc.
        split; [reflexivity|]. rewrite Forall_app. auto.
Qed.

(** * One turn of the main loop *)

Lemma code_points_below_maxInt (codePoints : list Z) :
  Forall is_code_point codePoints -> Forall (fun c => c <= maxInt) codePoints.
Proof.
  apply Forall_impl. unfold is_code_point, maxInt. lia.
Qed.

(** While some code point is not handled, one of them is at least [n], and
    the minimum of the pass is the least such code point. *)
Lemma head_inv_min (codePoints : list Z) (basicLength : Z) (st : enc_state) :
  Forall is_code_point codePoints ->
  head_inv codePoints basicLength st ->
  enc_handledCPCount st < Z.of_nat (length codePoints) ->
  In (encode_min codePoints (enc_n st)) codePoints /\
  enc_n st <= encode_min codePoints (enc_n st) /\
  forall c, In c codePoints -> enc_n st <= c -> encode_min codePoints (enc_n st) <= c.
Proof.
  intros Hcp (Hh & _) Hlt.
  destruct (filter_length_lt (fun c => c <? enc_n st) codePoints) as (c0 & Hin & Hc0);
    [lia|].
  apply Z.ltb_ge in Hc0.
  apply encode_min_spec with (c0 := c0); auto using code_points_below_maxInt.
Qed.

(** Entering a pass: the state after [delta += (m - n) * handledCPCountPlusOne]
    and [n = m], when the overflow test has passed. *)
Lemma encode_iteration_enter (codePoints : list Z) (basicLength : Z) (st : enc_state) :
  Forall is_code_point codePoints ->
  head_inv codePoints basicLength st ->
  enc_handledCPCount st < Z.of_nat (length codePoints) ->
  (encode_min codePoints (enc_n st) - enc_n st
   >? Math_floor (js_div (maxInt - enc_delta st) (enc_handledCPCount st + 1))) = false ->
  pass_inv basicLength (enc_handledCPCount st + 1) [] codePoints
    (mk_enc (encode_min codePoints (enc_n st))
       (enc_delta st
        + (encode_min codePoints (enc_n st) - enc_n st) * (enc_handledCPCount st + 1))
       (enc_bias st) (enc_handledCPCount st) (enc_output st)) /\
  filter (fun c => c <? encode_min codePoints (enc_n st)) codePoints
  = filter (fun c => c <? enc_n st) codePoints /\
  enc_n st <= encode_min codePoints (enc_n st) /\
  In (encode_min codePoints (enc_n st)) codePoints.
Proof.
  intros Hcp Hinv Hlt Htest.
  destruct (head_inv_min codePoints basicLength st Hcp Hinv Hlt) as (Hin & Hle & Hmin).
  destruct Hinv as (Hh & Hd & Hb & Ho).
  set (m := encode_min codePoints (enc_n st)) in *.
  assert (Hh1 : 0 < enc_handledCPCount st + 1) by lia.
  rewrite Math_floor_div in Htest by exact Hh1.
  destruct (Z.gtb_spec (m - enc_n st) ((maxInt - enc_delta st) / (enc_handledCPCount st + 1)))
    as [Hov|Hok]; [discriminate|].
  pose proof (Z.mul_div_le (maxInt - enc_delta st) (enc_handledCPCount st + 1) Hh1) as Hq.
  assert (Hfilter : filter (fun c => c <? m) codePoints
                    = filter (fun c => c <? enc_n st) codePoints).
  { apply filter_ext_in. intros c Hc.
    destruct (Z.ltb_spec c (enc_n st)), (Z.ltb_spec c m); try reflexivity; try lia.
    specialize (Hmin c Hc). lia. }
  split; [|auto].
  unfold pass_inv. cbn [enc_n enc_delta enc_handledCPCount enc_output app].
  rewrite handled_nil_l, Hfilter.
  repeat split; try assumption; try lia; try nia.
Qed.

Lemma filter_lt_succ (m : Z) (l : list Z) :
  filter (fun c => c <? m + 1) l = filter (fun c => c <=? m) l.
Proof.
  apply filter_ext. intros c.
  destruct (Z.ltb_spec c (m + 1)), (Z.leb_spec c m); try reflexivity; lia.
Qed.

Lemma encode_iteration_inv (codePoints : list Z) (basicLength : Z) (st : enc_state) :
  Forall is_code_point codePoints ->
  head_inv codePoints basicLength st ->
  enc_handledCPCount st < Z.of_nat (length codePoints) ->
  encode_iteration codePoints basicLength st = Throw Overflow \/
  exists st',
    encode_iteration codePoints basicLength st = Ok st' /\
    head_inv codePoints basicLength st' /\
    enc_handledCPCount st < enc_handledCPCount st' /\
    exists ds, enc_output st' = enc_output st ++ ds /\ Forall is_digit_unit ds.
Proof.
  intros Hcp Hinv Hlt.
  pose proof (encode_iteration_enter codePoints basicLength st Hcp Hinv Hlt) as Henter.
  unfold encode_iteration.
  destruct (_ >? _); [left; reflexivity|].
  destruct (Henter eq_refl) as (Hpass & Hfilter & Hle & Hin). clear Henter.
  set (m := encode_min codePoints (enc_n st)) in *.
  destruct Hinv as (Hh & Hd & Hb & Ho).
  destruct (encode_pass_inv basicLength _ codePoints [] _ Hpass)
    as [E|(st2 & E & (Hh2 & Hd2 & Hb2 & Ho2 & _) & Hn2 & ds & Hout & Hds)].
  - left. rewrite E. reflexivity.
  - right. rewrite E. cbn [bind]. eexists. split; [reflexivity|].
    cbn [app enc_n enc_output] in *. rewrite Hn2, handled_nil_r in Hh2.
    split; [|split].
    + unfold head_inv. cbn [enc_n enc_delta enc_handledCPCount enc_output].
      rewrite Hn2, filter_lt_succ. repeat split; try assumption; lia.
    + cbn [enc_handledCPCount]. rewrite Hh, Hh2. apply inj_lt.
      apply filter_length_in_lt with (c := m).
      * intros x Hx. apply Z.ltb_lt in Hx. apply Z.leb_le. lia.
      * exact Hin.
      * apply Z.ltb_ge. exact Hle.
      * apply Z.leb_refl.
    + cbn [enc_output]. exists ds. auto.
Qed.

(** * The main loop *)

Lemma encode_loop_total (codePoints : list Z) (basicLength : Z) (fuel : nat) :
  Forall is_code_point codePoints ->
  forall st,
    head_inv codePoints basicLength st ->
    Z.of_nat (length codePoints) - enc_handledCPCount st <= Z.of_nat fuel ->
    encode_loop fuel codePoints basicLength st = Throw Overflow \/
    exists ds,
      encode_loop fuel codePoints basicLength st = Ok (enc_output st ++ ds) /\
      Forall is_digit_unit ds.
Proof.
  intros Hcp. induction fuel as [|fuel IH]; intros st Hinv Hfuel.
  - cbn [encode_loop]. destruct (Z.ltb_spec (enc_handledCPCount st) (Z.of_nat (length codePoints)));
      [lia|].
    right. exists []. rewrite app_nil_r. split; [reflexivity|constructor].
  - cbn [encode_loop].
    destruct (Z.ltb_spec (enc_handledCPCount st) (Z.of_nat (length codePoints))) as [Hlt|Hge].
    + destruct (encode_iteration_inv codePoints basicLength st Hcp Hinv Hlt)
        as [E|(st' & E & Hinv' & Hgrow & ds & Hout & Hds)]; rewrite E; cbn [bind].
      * left. reflexivity.
      * destruct (IH st' Hinv') as [E2|(ds2 & E2 & Hds2)]; [lia| |].
        -- left. exact E2.
        -- right. exists (ds ++ ds2). rewrite E2, Hout, app_assoc.
           split; [reflexivity|]. rewrite Forall_app. auto.
    + right. exists []. rewrite app_nil_r. split; [reflexivity|constructor].
Qed.

(** * Code points of a string *)

Lemma is_string_cons (u : Z) (s : jsstring) :
  is_string (u :: s) = true <-> (0 <= u < 65536) /\ is_string s = true.
Proof.
  unfold is_string, is_unit. cbn [forallb].
  rewrite !andb_true_iff, Z.leb_le, Z.ltb_lt. tauto.
Qed.

Lemma ucs2decode_code_points_aux (len : nat) :
  forall s, (length s <= len)%nat -> is_string s = true ->
            Forall is_code_point (ucs2decode s).
Proof.
  induction len as [|len IH]; intros s Hlen Hs.
  - destruct s; [constructor|simpl in Hlen; lia].
  - destruct s as [|first rest]; [constructor|].
    apply is_string_cons in Hs. destruct Hs as [Hu Hrest].
    cbn [ucs2decode]. destruct rest as [|second rest'].
    + constructor; [unfold is_code_point; lia|constructor].
    + destruct (isHighSurrogate first && isLowSurrogate second) eqn:E.
      * apply andb_true_iff in E. destruct E as [E1 E2].
        unfold isHighSurrogate, isLowSurrogate in *.
        apply andb_true_iff in E1, E2.
        rewrite !Z.leb_le in E1, E2.
        pose proof Hrest as Hrest'. apply is_string_cons in Hrest'.
        constructor; [unfold is_code_point; lia|].
        apply IH; [simpl in Hlen |- *; lia|tauto].
      * constructor; [unfold is_code_point; lia|].
        apply IH; [simpl in Hlen |- *; lia|exact Hrest].
Qed.

Lemma ucs2decode_code_points (s : jsstring) :
  is_string s = true -> Forall is_code_point (ucs2decode s).
Proof. apply (ucs2decode_code_points_aux (length s)). lia. Qed.

(** * The basic code points *)

Lemma encode_basic_spec (codePoints : list Z) :
  Forall is_code_point codePoints ->
  forall output,
    encode_basic codePoints output = output ++ filter (fun c => c <? 128) codePoints.
Proof.
  induction 1 as [|c l Hc Hl IH]; intros output; cbn [encode_basic filter].
  - symmetry. apply app_nil_r.
  - rewrite IH. destruct (Z.ltb_spec c 128); [|reflexivity].
    unfold fromCharCode, is_code_point in *. rewrite Z.mod_small by lia.
    rewrite <- app_assoc. reflexivity.
Qed.

Lemma encode_init_inv (codePoints : list Z) :
  Forall is_code_point codePoints ->
  head_inv codePoints (encode_basicLength codePoints) (encode_init codePoints).
Proof.
  intros Hcp. unfold head_inv, encode_init, encode_basicLength.
  cbn [enc_n enc_delta enc_handledCPCount enc_output].
  rewrite encode_basic_spec by exact Hcp. cbn [app]. unfold initialN.
  split; [reflexivity|]. split; [lia|]. split; [lia|].
  assert (Hb : Forall is_basic (filter (fun c => c <? 128) codePoints)).
  { rewrite Forall_forall in *. intros c Hc. apply filter_In in Hc.
    destruct Hc as [Hc Hlt]. apply Z.ltb_lt in Hlt.
    specialize (Hcp c Hc). unfold is_code_point, is_basic in *. lia. }
  destruct (_ >? 0); [|exact Hb].
  rewrite Forall_app. split; [exact Hb|].
  constructor; [unfold is_basic, delimiter; lia|constructor].
Qed.

(** What [encode] returns is the output on entry to the main loop and then
    digits only. *)
Lemma encode_loop_shape (codePoints : list Z) (basicLength : Z) (fuel : nat) :
  Forall is_code_point codePoints ->
  forall st output,
    head_inv codePoints basicLength st ->
    encode_loop fuel codePoints basicLength st = Ok output ->
    exists ds, output = enc_output st ++ ds /\ Forall is_digit_unit ds.
Proof.
  intros Hcp. induction fuel as [|fuel IH]; intros st output Hinv He;
    cbn [encode_loop] in He;
    destruct (Z.ltb_spec (enc_handledCPCount st) (Z.of_nat (length codePoints))) as [Hlt|Hge];
    try discriminate.
  - injection He as <-. exists []. rewrite app_nil_r. split; [reflexivity|constructor].
  - destruct (encode_iteration_inv codePoints basicLength st Hcp Hinv Hlt)
      as [E|(st' & E & Hinv' & _ & ds & Hout & Hds)]; rewrite E in He; cbn [bind] in He;
      [discriminate|].
    destruct (IH st' output Hinv' He) as (ds2 & -> & Hds2).
    exists (ds ++ ds2). rewrite Hout, app_assoc.
    split; [reflexivity|]. rewrite Forall_app. auto.
  - injection He as <-. exists []. rewrite app_nil_r. split; [reflexivity|constructor].
Qed.

Lemma encode_unfold (input : jsstring) :
  encode input
  = encode_loop (length (ucs2decode input)) (ucs2decode input)
      (encode_basicLength (ucs2decode input)) (encode_init (ucs2decode input)).
Proof. reflexivity. Qed.

Lemma encode_outcome (input : jsstring) :
  is_string input = true ->
  encode input = Throw Overflow \/
  exists ds,
    encode input = Ok (enc_output (encode_init (ucs2decode input)) ++ ds) /\
    Forall is_digit_unit ds.
Proof.
  intros Hs. rewrite encode_unfold.
  pose proof (ucs2decode_code_points input Hs) as Hcp.
  pose proof (encode_init_inv _ Hcp) as Hinv.
  apply encode_loop_total; [exact Hcp|exact Hinv|].
  destruct Hinv as (Hh & _). lia.
Qed.


(** What [encode] returns: the basic code points and the delimiter, which
    are basic, and then digits. *)
Lemma encode_parts (input output : jsstring) :
  is_string input = true ->
  encode input = Ok output ->
  exists ds,
    output = enc_output (encode_init (ucs2decode input)) ++ ds /\
    Forall is_basic (enc_output (encode_init (ucs2decode input))) /\
    Forall is_digit_unit ds.
Proof.
  intros Hs He. destruct (encode_outcome input Hs) as [E|(ds & E & Hds)]; [congruence|].
  rewrite E in He. injection He as <-. exists ds.
  split; [reflexivity|]. split; [|exact Hds].
  apply (encode_init_inv _ (ucs2decode_code_points input Hs)).
Qed.

(** C5: every unit of a string that [encode] returns is a basic code point
    (below 0x80): the output is pure ASCII. *)
Theorem encode_output_ascii (input output : jsstring) :
  is_string input = true ->
  encode input = Ok output ->
  Forall is_basic output.
Proof.
  intros Hs He. destruct (encode_parts input output Hs He) as (ds & -> & Hinit & Hds).
  rewrite Forall_app. split; [exact Hinit|].
  eapply Forall_impl; [|exact Hds]. apply is_digit_unit_basic.
Qed.

Lemma encode_output_ascii_witness :
  Forall is_basic (units "maana-pta").
Proof.
  apply (encode_output_ascii (units "ma" ++ [241] ++ units "ana") (units "maana-pta"));
    reflexivity.
Defined.

(** * The states at the head of the main loop *)

Lemma loop_head_inv (codePoints : list Z) (st : enc_state) :
  Forall is_code_point codePoints ->
  loop_head codePoints st ->
  head_inv codePoints (encode_basicLength codePoints) st.
Proof.
  intros Hcp. induction 1 as [|st st' _ IH Hlt Hit].
  - apply encode_init_inv. exact Hcp.
  - destruct (encode_iteration_inv codePoints _ st Hcp IH Hlt)
      as [E|(st2 & E & Hinv & _)]; [congruence|].
    rewrite E in Hit. injection Hit as <-. exact Hinv.
Qed.

(** The run of [encode] goes through states of [loop_head] only, and ends in
    one in which every code point is handled. *)
Lemma encode_loop_states (codePoints : list Z) (fuel : nat) :
  forall st output,
    loop_head codePoints st ->
    encode_loop fuel codePoints (encode_basicLength codePoints) st = Ok output ->
    exists final,
      loop_head codePoints final /\
      Z.of_nat (length codePoints) <= enc_handledCPCount final /\
      output = enc_output final.
Proof.
  induction fuel as [|fuel IH]; intros st output Hreach He; cbn [encode_loop] in He;
    destruct (Z.ltb_spec (enc_handledCPCount st) (Z.of_nat (length codePoints))) as [Hlt|Hge];
    try discriminate.
  - injection He as <-. exists st. auto.
  - destruct (encode_iteration codePoints _ st) as [st'| |] eqn:E;
      cbn [bind] in He; try discriminate.
    apply (IH st' output); [|exact He].
    exact (loop_head_next codePoints st st' Hreach Hlt E).
  - injection He as <-. exists st. auto.
Qed.

(** C9: in every turn of the main loop of [encode] some input code point
    is at least [n]; the minimum [m] of the turn is an input code point,
    the least one that is at least [n], and never the fallback [maxInt]. *)
Theorem encode_min_attained (input : jsstring) (st : enc_state) :
  is_string input = true ->
  loop_head (ucs2decode input) st ->
  enc_handledCPCount st < Z.of_nat (length (ucs2decode input)) ->
  (exists c, In c (ucs2decode input) /\ enc_n st <= c) /\
  In (encode_min (ucs2decode input) (enc_n st)) (ucs2decode input) /\
  enc_n st <= encode_min (ucs2decode input) (enc_n st) /\
  (forall c, In c (ucs2decode input) -> enc_n st <= c ->
             encode_min (ucs2decode input) (enc_n st) <= c) /\
  encode_min (ucs2decode input) (enc_n st) < maxInt.
Proof.
  intros Hs Hreach Hlt.
  pose proof (ucs2decode_code_points input Hs) as Hcp.
  pose proof (loop_head_inv _ st Hcp Hreach) as Hinv.
  destruct (head_inv_min _ _ st Hcp Hinv Hlt) as (Hin & Hle & Hmin).
  split; [eauto|]. repeat split; try assumption.
  rewrite Forall_forall in Hcp. specialize (Hcp _ Hin).
  unfold is_code_point, maxInt in *. lia.
Qed.

Lemma encode_min_attained_witness :
  (exists c, In c [109; 241; 233] /\ 234 <= c) /\
  In (encode_min [109; 241; 233] 234) [109; 241; 233] /\
  234 <= encode_min [109; 241; 233] 234 /\
  (forall c, In c [109; 241; 233] -> 234 <= c -> encode_min [109; 241; 233] 234 <= c) /\
  encode_min [109; 241; 233] 234 < maxInt.
Proof.
  apply (encode_min_attained [109; 241; 233] (mk_enc 234 1 0 2 [109; 45; 98; 103; 97])).
  - reflexivity.
  - apply (loop_head_next [109; 241; 233] (encode_init [109; 241; 233])).
    + apply loop_head_init.
    + vm_compute. reflexivity.
    + vm_compute. reflexivity.
  - vm_compute. reflexivity.
Defined.


(** * The decoder *)

Lemma adapt_total (delta numPoints : Z) (firstTime : bool) :
  exists result, adapt delta numPoints firstTime = Ok result.
Proof.
  unfold adapt.
  set (delta1 := if firstTime then _ else _).
  set (delta2 := delta1 + _).
  destruct (adapt_loop_while (digits_fuel delta2) delta2 0 (digits_fuel_spec delta2))
    as (d3 & k & Hloop & _).
  rewrite Hloop. cbn [bind]. eauto.
Qed.

Lemma decode_digits_length (rest : jsstring) :
  forall k i w bias i' rest',
    decode_digits rest k i w bias = Ok (i', rest') ->
    (length rest' < length rest)%nat.
Proof.
  induction rest as [|c rest IH]; intros k i w bias i' rest' H; cbn [decode_digits] in H.
  - discriminate.
  - destruct (basicToDigit c >=? base); [discriminate|].
    destruct (basicToDigit c >? _); [discriminate|].
    destruct (basicToDigit c <? threshold k bias).
    + injection H as _ <-. simpl. lia.
    + destruct (w >? _); [discriminate|].
      apply IH in H. simpl. lia.
Qed.


(** Fuel beyond the length of what is left to read changes nothing. *)
Lemma decode_loop_fuel (fuel1 : nat) :
  forall fuel2 rest n i bias output,
    (length rest <= fuel1)%nat -> (length rest <= fuel2)%nat ->
    decode_loop fuel1 rest n i bias output = decode_loop fuel2 rest n i bias output.
Proof.
  induction fuel1 as [|fuel1 IH]; intros fuel2 rest n i bias output H1 H2.
  - destruct rest; [|simpl in H1; lia]. destruct fuel2; reflexivity.
  - destruct rest as [|c rest]; [destruct fuel2; reflexivity|].
    destruct fuel2 as [|fuel2]; [simpl in H2; lia|].
    cbn [decode_loop].
    destruct (decode_digits (c :: rest) base i 1 bias) as [[i' rest']|e|] eqn:E;
      cbn [bind]; try reflexivity.
    apply decode_digits_length in E.
    destruct (adapt _ _ _); cbn [bind]; try reflexivity.
    destruct (_ >? _); [reflexivity|].
    apply IH; simpl in *; lia.
Qed.

Lemma decode_run_nil (n i bias : Z) (output : list Z) :
  decode_run [] n i bias output = Ok output.
Proof. reflexivity. Qed.

Lemma decode_run_cons (c : Z) (rest : jsstring) (n i bias : Z) (output : list Z) :
  decode_run (c :: rest) n i bias output
  = ('(i', rest') <- decode_digits (c :: rest) base i 1 bias ;;
     let out := Z.of_nat (length output) + 1 in
     bias' <- adapt (i' - i) out (i =? 0) ;;
     if Math_floor (js_div i' out) >? maxInt - n then error_ Overflow
     else
       decode_run rest' (n + Math_floor (js_div i' out)) (Z.rem i' out + 1) bias'
         (splice_insert output (Z.rem i' out) (n + Math_floor (js_div i' out)))).
Proof.
  unfold decode_run. cbn [length decode_loop].
  destruct (decode_digits (c :: rest) base i 1 bias) as [[i' rest']|e|] eqn:E;
    cbn [bind]; try reflexivity.
  apply decode_digits_length in E.
  destruct (adapt _ _ _); cbn [bind]; try reflexivity.
  destruct (_ >? _); [reflexivity|].
  apply decode_loop_fuel; simpl in *; lia.
Qed.

Lemma decode_run_nonempty (rest : jsstring) (n i bias : Z) (output : list Z) :
  rest <> [] ->
  decode_run rest n i bias output
  = ('(i', rest') <- decode_digits rest base i 1 bias ;;
     bias' <- adapt (i' - i) (Z.of_nat (length output) + 1) (i =? 0) ;;
     if Math_floor (js_div i' (Z.of_nat (length output) + 1)) >? maxInt - n
     then error_ Overflow
     else
       decode_run rest'
         (n + Math_floor (js_div i' (Z.of_nat (length output) + 1)))
         (Z.rem i' (Z.of_nat (length output) + 1) + 1) bias'
         (splice_insert output (Z.rem i' (Z.of_nat (length output) + 1))
            (n + Math_floor (js_div i' (Z.of_nat (length output) + 1))))).
Proof.
  intros H. destruct rest as [|c rest]; [contradiction|]. apply decode_run_cons.
Qed.




Lemma decode_unfold (input : jsstring) :
  decode input
  = (let basic := lastIndexOf input delimiter in
     let basic := if basic <? 0 then 0 else basic in
     output <- decode_basic (firstn (Z.to_nat basic) input) [] ;;
     output <- decode_run (skipn (Z.to_nat (if basic >? 0 then basic + 1 else 0)) input)
                 initialN 0 initialBias output ;;
     fromCodePoint output).
Proof. reflexivity. Qed.


(** * The delimiter *)

Lemma lastIndexOf_from_absent (s : jsstring) (c : Z) :
  ~ In c s -> forall j found, lastIndexOf_from s c j found = found.
Proof.
  induction s as [|x s IH]; intros Hnin j found; cbn [lastIndexOf_from]; [reflexivity|].
  destruct (Z.eqb_spec x c) as [->|_]; [exfalso; apply Hnin; left; reflexivity|].
  apply IH. intros H. apply Hnin. right. exact H.
Qed.

Lemma lastIndexOf_from_last (p d : jsstring) (c : Z) :
  ~ In c d ->
  forall j found, lastIndexOf_from (p ++ c :: d) c j found = j + Z.of_nat (length p).
Proof.
  intros Hnin. induction p as [|x p IH]; intros j found.
  - cbn [app lastIndexOf_from length]. rewrite Z.eqb_refl.
    rewrite lastIndexOf_from_absent by exact Hnin. simpl. lia.
  - cbn [app lastIndexOf_from]. rewrite IH. cbn [length]. lia.
Qed.

Lemma lastIndexOf_absent (s : jsstring) (c : Z) : ~ In c s -> lastIndexOf s c = -1.
Proof. intros H. apply lastIndexOf_from_absent. exact H. Qed.

Lemma lastIndexOf_last (p d : jsstring) (c : Z) :
  ~ In c d -> lastIndexOf (p ++ c :: d) c = Z.of_nat (length p).
Proof. intros H. unfold lastIndexOf. rewrite lastIndexOf_from_last by exact H. lia. Qed.

Lemma decode_basic_spec (prefix : jsstring) :
  Forall is_basic prefix ->
  forall output, decode_basic prefix output = Ok (output ++ prefix).
Proof.
  induction 1 as [|c l Hc Hl IH]; intros output; cbn [decode_basic].
  - rewrite app_nil_r. reflexivity.
  - unfold is_basic in Hc. destruct (Z.geb_spec c 128); [lia|].
    rewrite IH, <- app_assoc. reflexivity.
Qed.

(** C10: on a string whose only [-] is its first unit, [decode] takes no
    basic prefix ([lastIndexOf] is 0), reads the [-] as the first digit,
    which [basicToDigit] maps to [base], and throws [InvalidInput]. *)
Theorem decode_leading_delimiter (tail : jsstring) :
  ~ In delimiter tail ->
  lastIndexOf (delimiter :: tail) delimiter = 0 /\
  basicToDigit delimiter = base /\
  decode (delimiter :: tail) = Throw InvalidInput.
Proof.
  intros Hnin.
  assert (H0 : lastIndexOf (delimiter :: tail) delimiter = 0).
  { apply (lastIndexOf_last [] tail delimiter Hnin). }
  split; [exact H0|]. split; [reflexivity|].
  rewrite decode_unfold, H0. reflexivity.
Qed.

Lemma decode_leading_delimiter_witness :
  lastIndexOf (units "-a") delimiter = 0 /\
  basicToDigit delimiter = base /\
  decode (units "-a") = Throw InvalidInput.
Proof.
  apply (decode_leading_delimiter (units "a")).
  simpl. intros [H|[]]. discriminate H.
Defined.


(** * Reading back the digits of one delta *)

Lemma decode_last_digit (q k i w bias : Z) (rest : jsstring) :
  0 <= q < threshold k bias -> 1 <= w ->
  decode_digits (fromCharCode (digitToBasic q false) :: rest) k i w bias
  = if q >? (maxInt - i) / w then Throw Overflow else Ok (i + q * w, rest).
Proof.
  intros Hq Hw. pose proof (threshold_range k bias) as Ht.
  cbn [decode_digits]. rewrite basicToDigit_digitToBasic by lia.
  rewrite Math_floor_div by lia.
  destruct (Z.geb_spec q base); [unfold base in *; lia|].
  destruct (q >? (maxInt - i) / w); [reflexivity|].
  destruct (Z.ltb_spec q (threshold k bias)); [reflexivity|lia].
Qed.

Lemma decode_inner_digit (d k i w bias : Z) (rest : jsstring) :
  threshold k bias <= d < base -> 1 <= w ->
  decode_digits (fromCharCode (digitToBasic d false) :: rest) k i w bias
  = if d >? (maxInt - i) / w then Throw Overflow
    else if w >? maxInt / (base - threshold k bias) then Throw Overflow
         else decode_digits rest (k + base) (i + d * w)
                (w * (base - threshold k bias)) bias.
Proof.
  intros Hd Hw. pose proof (threshold_range k bias) as Ht.
  cbn [decode_digits]. rewrite basicToDigit_digitToBasic by (unfold base in *; lia).
  rewrite !Math_floor_div by (unfold base; lia).
  destruct (Z.geb_spec d base); [lia|].
  destruct (d >? (maxInt - i) / w); [reflexivity|].
  destruct (Z.ltb_spec d (threshold k bias)); [lia|reflexivity].
Qed.

Lemma pow35_le (j : nat) : (j <= 5)%nat -> 35 ^ Z.of_nat j <= 52521875.
Proof.
  intros H. change 52521875 with (35 ^ Z.of_nat 5).
  apply Z.pow_le_mono_r; lia.
Qed.

(** The digits written for [q] read back as [q]: the decoder adds [q * w]
    to its [i], or throws [Overflow]; it does not throw while the sum fits
    and [w] is the weight of the [j]-th digit. *)
Lemma digits_roundtrip (fuel : nat) :
  forall k q bias output qf output',
    0 <= q ->
    encode_digits fuel k q bias output = Ok (qf, output') ->
    exists ds,
      output' = output ++ ds /\
      forall i w rest,
        1 <= w ->
        (decode_digits (ds ++ fromCharCode (digitToBasic qf false) :: rest) k i w bias
         = Ok (i + q * w, rest) \/
         decode_digits (ds ++ fromCharCode (digitToBasic qf false) :: rest) k i w bias
         = Throw Overflow) /\
        (forall j : nat,
            0 <= i -> i + q * w <= maxInt ->
            k = 36 * (Z.of_nat j + 1) -> w <= 35 ^ Z.of_nat j -> bias <= 213 ->
            decode_digits (ds ++ fromCharCode (digitToBasic qf false) :: rest) k i w bias
            = Ok (i + q * w, rest)).
Proof.
  assert (Hlast : forall k q bias i w rest,
             0 <= q < threshold k bias -> 1 <= w ->
             (decode_digits (fromCharCode (digitToBasic q false) :: rest) k i w bias
              = Ok (i + q * w, rest) \/
              decode_digits (fromCharCode (digitToBasic q false) :: rest) k i w bias
              = Throw Overflow) /\
             (0 <= i -> i + q * w <= maxInt ->
              decode_digits (fromCharCode (digitToBasic q false) :: rest) k i w bias
              = Ok (i + q * w, rest))).
  { intros k q bias i w rest Hq Hw. rewrite decode_last_digit by assumption.
    destruct (Z.gtb_spec q ((maxInt - i) / w)) as [Hgt|Hle]; split; auto.
    intros Hi Hsum. exfalso.
    assert (q <= (maxInt - i) / w) by (apply Z.div_le_lower_bound; nia). lia. }
  induction fuel as [|fuel IH]; intros k q bias output qf output' Hq He;
    cbn [encode_digits] in He;
    pose proof (threshold_range k bias) as Ht;
    destruct (Z.ltb_spec q (threshold k bias)) as [Hlt|Hge];
    try discriminate.
  - injection He as <- <-. exists []. rewrite app_nil_r. split; [reflexivity|].
    intros i w rest Hw. cbn [app].
    destruct (Hlast k q bias i w rest) as [H1 H2]; [lia|lia|]. split; auto.
  - injection He as <- <-. exists []. rewrite app_nil_r. split; [reflexivity|].
    intros i w rest Hw. cbn [app].
    destruct (Hlast k q bias i w rest) as [H1 H2]; [lia|lia|]. split; auto.
  - set (t := threshold k bias) in *.
    assert (Hb : 10 <= base - t <= 35) by (unfold base; lia).
    rewrite Math_floor_div in He by lia.
    rewrite Z.rem_mod_nonneg in He by lia.
    set (d := t + (q - t) mod (base - t)) in *.
    set (q' := (q - t) / (base - t)) in *.
    assert (Hq' : 0 <= q') by (apply Z.div_pos; lia).
    assert (Hmod : 0 <= (q - t) mod (base - t) < base - t) by (apply Z.mod_pos_bound; lia).
    assert (Hsplit : q = d + q' * (base - t)).
    { unfold d, q'. pose proof (Z.div_mod (q - t) (base - t)). lia. }
    destruct (IH _ _ _ _ _ _ Hq' He) as (ds & Hout & Hdec).
    exists (fromCharCode (digitToBasic d false) :: ds).
    split; [rewrite Hout, <- app_assoc; reflexivity|].
    intros i w rest Hw. cbn [app].
    rewrite decode_inner_digit by (fold t; unfold base in *; lia). fold t.
    assert (Hw' : 1 <= w * (base - t)) by nia.
    destruct (Hdec (i + d * w) (w * (base - t)) rest Hw') as [Hd1 Hd2].
    replace (i + d * w + q' * (w * (base - t))) with (i + q * w) in * by nia.
    split.
    + destruct (d >? (maxInt - i) / w); [right; reflexivity|].
      destruct (w >? maxInt / (base - t)); [right; reflexivity|].
      exact Hd1.
    + intros j Hi Hsum Hk Hwj Hbias.
      destruct (Z.gtb_spec d ((maxInt - i) / w)) as [Hgt|_].
      { exfalso. assert (d <= (maxInt - i) / w) by (apply Z.div_le_lower_bound; nia). lia. }
      assert (Hfit : w * (base - t) <= maxInt).
      { destruct (Z.le_gt_cases 18 t) as [Hbig|Hsmall].
        - unfold base in *. nia.
        - assert (Hj : (j <= 5)%nat).
          { unfold t, threshold, tMin, tMax in Hsmall.
            destruct (Z.leb_spec k bias); [lia|].
            destruct (k >=? bias + 26) eqn:E; [lia|].
            rewrite Z.geb_leb in E. apply Z.leb_gt in E. lia. }
          pose proof (pow35_le j Hj). unfold maxInt. nia. }
      destruct (Z.gtb_spec w (maxInt / (base - t))) as [Hgt|_].
      { exfalso. assert (w <= maxInt / (base - t)) by (apply Z.div_le_lower_bound; lia). lia. }
      apply (Hd2 (S j)); try nia.
      * unfold base. lia.
      * rewrite Nat2Z.inj_succ, Z.pow_succ_r by lia. nia.
Qed.

(** * One code point of a pass, read back *)

Lemma splice_insert_app (l1 l2 : list Z) (x : Z) :
  splice_insert (l1 ++ l2) (Z.of_nat (length l1)) x = l1 ++ x :: l2.
Proof.
  unfold splice_insert. rewrite Nat2Z.id.
  rewrite firstn_app, Nat.sub_diag, firstn_all. cbn [firstn]. rewrite app_nil_r.
  rewrite skipn_app, Nat.sub_diag, skipn_all. reflexivity.
Qed.

Lemma encode_step_sim (L basicLength hp1 : Z) (pre post : list Z) (c : Z)
  (st st' : enc_state) (n_d i_d : Z) (out_d : list Z) :
  c <= 1114111 ->
  Z.of_nat (length pre) + Z.of_nat (length (c :: post)) <= L ->
  pass_inv basicLength hp1 pre (c :: post) st ->
  dec_rel basicLength pre (c :: post) st n_d i_d out_d ->
  encode_step c basicLength hp1 st = Ok st' ->
  exists ds,
    enc_output st' = enc_output st ++ ds /\
    forall rest,
      (decode_run (ds ++ rest) n_d i_d (enc_bias st) out_d = Throw Overflow /\
       2147483648 < L * 1114112) \/
      exists n_d' i_d' out_d',
        dec_rel basicLength (pre ++ [c]) post st' n_d' i_d' out_d' /\
        decode_run (ds ++ rest) n_d i_d (enc_bias st) out_d
        = decode_run rest n_d' i_d' (enc_bias st') out_d'.
Proof.
  intros Hc HL (Hh & Hd & Hb & Ho & Hp & Hs) (Hout & Heq & Hfirst & Hi & Hn & Hbias) Hstep.
  unfold encode_step in Hstep.
  destruct (Z.ltb_spec c (enc_n st)) as [Hlt|Hge].
  - (* below n *)
    cbn zeta in Hstep. destruct (Z.gtb_spec (enc_delta st + 1) maxInt); [discriminate|].
    cbn [bind] in Hstep. destruct (Z.eqb_spec c (enc_n st)); [lia|].
    injection Hstep as <-. exists []. split; [cbn; rewrite app_nil_r; reflexivity|].
    intros rest. right. exists n_d, i_d, out_d. split; [|reflexivity].
    unfold dec_rel. cbn [enc_n enc_delta enc_handledCPCount enc_bias].
    rewrite handled_below by exact Hlt.
    rewrite filter_app, length_app. cbn [filter].
    destruct (Z.leb_spec c (enc_n st)); [|lia].
    cbn [length]. repeat split; try assumption; lia.
  - cbn [bind] in Hstep. destruct (Z.eqb_spec c (enc_n st)) as [->|Hne].
    + (* equal to n: the delta is written, and read back *)
      destruct (encode_digits _ _ _ _ _) as [[qf out']| |] eqn:Hdig;
        cbn [bind] in Hstep; try discriminate.
      destruct (adapt _ _ _) as [bias'| |] eqn:Had; cbn [bind] in Hstep; try discriminate.
      injection Hstep as <-.
      destruct (digits_roundtrip _ _ _ _ _ _ _ (proj1 Hd) Hdig) as (ds & Hout' & Hdec).
      destruct (adapt_correct (enc_delta st) hp1
                  (enc_handledCPCount st =? basicLength)) as (bias2 & Had2 & _ & Hbias2);
        [lia|lia|].
      assert (bias2 = bias') by congruence. subst bias2.
      assert (Hpre : Z.of_nat (length (filter (fun c => c <? enc_n st) pre)) <= hp1 - 1).
      { rewrite Hp, filter_app, length_app. lia. }
      assert (Hstale : adapt (enc_delta st) (enc_handledCPCount st + 1)
                         (enc_handledCPCount st =? basicLength) = Ok bias').
      { rewrite <- Had.
        destruct (Z.eq_dec (enc_handledCPCount st) (hp1 - 1)) as [Heq1|Hne1].
        - f_equal. lia.
        - destruct Hs as [Hs|Hs]; [contradiction|].
          destruct (Z.eqb_spec (enc_handledCPCount st) basicLength); [lia|].
          assert (enc_delta st / 2 <= enc_delta st).
          { apply Z.div_le_upper_bound; lia. }
          apply adapt_numPoints; lia. }
      clear Had. rename Hstale into Had.
      destruct (handled_equal (enc_n st) pre post) as [E1 E2].
      rewrite E1 in Hh, Hout. unfold handled in Hh, Hout.
      set (l1 := filter (fun c => c <=? enc_n st) pre) in *.
      set (l2 := filter (fun c => c <? enc_n st) post) in *.
      rewrite length_app in Hh.
      pose proof (filter_length_le (fun c => c <=? enc_n st) pre) as Hl1. fold l1 in Hl1.
      pose proof (filter_length_le (fun c => c <? enc_n st) post) as Hl2. fold l2 in Hl2.
      cbn [length] in HL.
      set (h := enc_handledCPCount st) in *.
      set (pos := Z.of_nat (length l1)) in *.
      assert (Hpos : 0 <= pos <= h) by lia.
      assert (Hlen : Z.of_nat (length out_d) + 1 = h + 1).
      { rewrite Hout, length_app. lia. }
      assert (Hquot : (i_d + enc_delta st * 1) / (h + 1) = enc_n st - n_d).
      { rewrite Z.mul_1_r, Heq. rewrite Z.div_add_l by lia.
        rewrite Z.div_small by lia. lia. }
      assert (Hrem : Z.rem (i_d + enc_delta st * 1) (h + 1) = pos).
      { rewrite Z.rem_mod_nonneg by lia.
        rewrite Z.mul_1_r, Heq. rewrite Z.add_comm, Z.mod_add by lia.
        apply Z.mod_small. lia. }
      exists (ds ++ [fromCharCode (digitToBasic qf false)]).
      split; [cbn [enc_output]; rewrite Hout', app_assoc; reflexivity|].
      intros rest. rewrite <- app_assoc. cbn [app].
      rewrite decode_run_nonempty by (destruct ds; discriminate).
      destruct (Hdec i_d 1 rest) as [Hd1 Hd2]; [lia|].
      assert (Hread : decode_digits (ds ++ fromCharCode (digitToBasic qf false) :: rest)
                        base i_d 1 (enc_bias st)
                      = Ok (i_d + enc_delta st * 1, rest) ->
              exists n_d' i_d' out_d',
                dec_rel basicLength (pre ++ [enc_n st]) post
                  (mk_enc (enc_n st) 0 bias' (h + 1)
                     (out' ++ [fromCharCode (digitToBasic qf false)])) n_d' i_d' out_d' /\
                ('(i', rest') <- decode_digits
                                   (ds ++ fromCharCode (digitToBasic qf false) :: rest)
                                   base i_d 1 (enc_bias st) ;;
                 bias' <- adapt (i' - i_d) (Z.of_nat (length out_d) + 1) (i_d =? 0) ;;
                 if Math_floor (js_div i' (Z.of_nat (length out_d) + 1)) >? maxInt - n_d
                 then error_ Overflow
                 else
                   decode_run rest'
                     (n_d + Math_floor (js_div i' (Z.of_nat (length out_d) + 1)))
                     (Z.rem i' (Z.of_nat (length out_d) + 1) + 1) bias'
                     (splice_insert out_d (Z.rem i' (Z.of_nat (length out_d) + 1))
                        (n_d + Math_floor (js_div i' (Z.of_nat (length out_d) + 1)))))
                = decode_run rest n_d' i_d'
                    (enc_bias (mk_enc (enc_n st) 0 bias' (h + 1)
                                 (out' ++ [fromCharCode (digitToBasic qf false)]))) out_d').
      { intros Hok. rewrite Hok. cbn [bind]. rewrite Hlen.
        replace (i_d + enc_delta st * 1 - i_d) with (enc_delta st) by lia.
        rewrite Hfirst. fold h in Had. rewrite Had. cbn [bind].
        rewrite Math_floor_div by lia. rewrite Hquot, Hrem.
        destruct (Z.gtb_spec (enc_n st - n_d) (maxInt - n_d)); [unfold maxInt in *; lia|].
        replace (n_d + (enc_n st - n_d)) with (enc_n st) by lia.
        exists (enc_n st), (pos + 1), (l1 ++ enc_n st :: l2).
        split; [|rewrite Hout; unfold pos; rewrite splice_insert_app; reflexivity].
        unfold dec_rel. cbn [enc_n enc_delta enc_handledCPCount enc_bias].
        rewrite E2. fold l1 l2.
        rewrite filter_app, length_app. cbn [filter]. rewrite Z.leb_refl. cbn [length].
        fold l1. fold h in Hb.
        assert (basicLength <= h) by lia.
        destruct (Z.eqb_spec (pos + 1) 0); [lia|].
        destruct (Z.eqb_spec (h + 1) basicLength); [lia|].
        repeat split; try lia. }
      destruct (Z.le_gt_cases (L * 1114112) 2147483648) as [Hsmall|Hbig].
      * right. apply Hread. apply (Hd2 0%nat); try lia.
        -- rewrite Z.mul_1_r, Heq. unfold maxInt. nia.
        -- reflexivity.
      * destruct Hd1 as [Hok|Hov].
        -- right. apply Hread. exact Hok.
        -- left. rewrite Hov. split; [reflexivity|lia].
    + (* above n *)
      injection Hstep as <-. exists []. split; [cbn; rewrite app_nil_r; reflexivity|].
      intros rest. right. exists n_d, i_d, out_d. split; [|reflexivity].
      unfold dec_rel. cbn [enc_n enc_delta enc_handledCPCount enc_bias].
      rewrite handled_above by lia.
      rewrite filter_app, length_app. cbn [filter].
      destruct (Z.leb_spec c (enc_n st)); [lia|].
      cbn [length]. repeat split; try assumption; lia.
Qed.

(** The same, for any way of writing the output of the step as the output
    before it and what the step appends. *)
Lemma encode_step_sim_app (L basicLength hp1 : Z) (pre post : list Z) (c : Z)
  (st st' : enc_state) (n_d i_d : Z) (out_d : list Z) (ds rest : jsstring) :
  c <= 1114111 ->
  Z.of_nat (length pre) + Z.of_nat (length (c :: post)) <= L ->
  pass_inv basicLength hp1 pre (c :: post) st ->
  dec_rel basicLength pre (c :: post) st n_d i_d out_d ->
  encode_step c basicLength hp1 st = Ok st' ->
  enc_output st' = enc_output st ++ ds ->
  (decode_run (ds ++ rest) n_d i_d (enc_bias st) out_d = Throw Overflow /\
   2147483648 < L * 1114112) \/
  exists n_d' i_d' out_d',
    dec_rel basicLength (pre ++ [c]) post st' n_d' i_d' out_d' /\
    decode_run (ds ++ rest) n_d i_d (enc_bias st) out_d
    = decode_run rest n_d' i_d' (enc_bias st') out_d'.
Proof.
  intros Hc HL Hinv Hrel Hstep Hout.
  destruct (encode_step_sim L basicLength hp1 pre post c st st' n_d i_d out_d
              Hc HL Hinv Hrel Hstep) as (ds0 & Hout0 & Hsim).
  rewrite Hout0 in Hout. apply app_inv_head in Hout. subst ds0. apply Hsim.
Qed.

(** * One pass, read back *)

Lemma encode_pass_sim (L basicLength hp1 : Z) (post : list Z) :
  forall pre st st' n_d i_d out_d ds rest,
    Forall is_code_point post ->
    Z.of_nat (length pre) + Z.of_nat (length post) <= L ->
    pass_inv basicLength hp1 pre post st ->
    dec_rel basicLength pre post st n_d i_d out_d ->
    encode_pass post basicLength hp1 st = Ok st' ->
    enc_output st' = enc_output st ++ ds ->
    (decode_run (ds ++ rest) n_d i_d (enc_bias st) out_d = Throw Overflow /\
     2147483648 < L * 1114112) \/
    exists n_d' i_d' out_d',
      dec_rel basicLength (pre ++ post) [] st' n_d' i_d' out_d' /\
      decode_run (ds ++ rest) n_d i_d (enc_bias st) out_d
      = decode_run rest n_d' i_d' (enc_bias st') out_d'.
Proof.
  induction post as [|c post IH];
    intros pre st st' n_d i_d out_d ds rest Hcp HL Hinv Hrel Hpass Hout.
  - cbn [encode_pass] in Hpass. injection Hpass as <-.
    rewrite <- (app_nil_r (enc_output st)) in Hout at 1.
    apply app_inv_head in Hout. subst ds.
    right. exists n_d, i_d, out_d. rewrite app_nil_r. split; [exact Hrel|reflexivity].
  - cbn [encode_pass] in Hpass.
    destruct (encode_step_inv basicLength hp1 pre post c st Hinv)
      as [E|(st1 & E & Hinv1 & Hn1 & ds1 & Hout1 & _)];
      rewrite E in Hpass; cbn [bind] in Hpass; [discriminate|].
    destruct (encode_pass_inv basicLength hp1 post (pre ++ [c]) st1 Hinv1)
      as [E2|(st2 & E2 & _ & _ & ds2 & Hout2 & _)];
      rewrite E2 in Hpass; [discriminate|].
    injection Hpass as <-.
    assert (Hds : ds = ds1 ++ ds2).
    { rewrite Hout2, Hout1, <- app_assoc in Hout. apply app_inv_head in Hout. auto. }
    subst ds. rewrite <- app_assoc.
    inversion Hcp as [|c' post' Hc Hcp']; subst.
    destruct (encode_step_sim_app L basicLength hp1 pre post c st st1 n_d i_d out_d
                ds1 (ds2 ++ rest)) as [Hov|(n1 & i1 & o1 & Hrel1 & Hrun1)];
      try assumption.
    { unfold is_code_point in Hc. lia. }
    + left. exact Hov.
    + rewrite Hrun1.
      destruct (IH (pre ++ [c]) st1 st2 n1 i1 o1 ds2 rest)
        as [Hov2|(n2 & i2 & o2 & Hrel2 & Hrun2)]; try assumption.
      { rewrite length_app. cbn [length] in *. lia. }
      * left. exact Hov2.
      * right. exists n2, i2, o2. rewrite <- app_assoc in Hrel2. auto.
Qed.

(** * One turn of the main loop, read back *)

Lemma encode_iteration_sim (codePoints : list Z) (basicLength : Z)
  (st st' : enc_state) (n_d i_d : Z) (out_d : list Z) (ds rest : jsstring) :
  Forall is_code_point codePoints ->
  head_inv codePoints basicLength st ->
  dec_rel basicLength [] codePoints st n_d i_d out_d ->
  enc_handledCPCount st < Z.of_nat (length codePoints) ->
  encode_iteration codePoints basicLength st = Ok st' ->
  enc_output st' = enc_output st ++ ds ->
  (decode_run (ds ++ rest) n_d i_d (enc_bias st) out_d = Throw Overflow /\
   2147483648 < Z.of_nat (length codePoints) * 1114112) \/
  exists n_d' i_d' out_d',
    dec_rel basicLength [] codePoints st' n_d' i_d' out_d' /\
    decode_run (ds ++ rest) n_d i_d (enc_bias st) out_d
    = decode_run rest n_d' i_d' (enc_bias st') out_d'.
Proof.
  intros Hcp Hinv Hrel Hlt Hit Hout.
  pose proof (encode_iteration_enter codePoints basicLength st Hcp Hinv Hlt) as Henter.
  unfold encode_iteration in Hit.
  destruct (_ >? _); [discriminate|].
  destruct (Henter eq_refl) as (Hpass & Hfilter & Hle & Hin). clear Henter.
  set (m := encode_min codePoints (enc_n st)) in *.
  set (st_m := mk_enc m (enc_delta st + (m - enc_n st) * (enc_handledCPCount st + 1))
                 (enc_bias st) (enc_handledCPCount st) (enc_output st)) in *.
  destruct (encode_pass codePoints basicLength (enc_handledCPCount st + 1) st_m)
    as [st2| |] eqn:E;
    cbn [bind] in Hit; try discriminate.
  injection Hit as <-. cbn [enc_output enc_bias] in *.
  destruct Hrel as (Ho & Heq & Hfirst & Hi & Hn & Hbias).
  destruct (encode_pass_inv basicLength _ codePoints [] st_m Hpass)
    as [E'|(st2' & E' & (Hh2 & _) & Hn2 & _)]; rewrite E in E'; [discriminate|].
  injection E' as <-. cbn [app enc_n] in *. rewrite Hn2, handled_nil_r in Hh2.
  destruct (encode_pass_sim (Z.of_nat (length codePoints)) basicLength
              (enc_handledCPCount st + 1) codePoints
              [] st_m st2 n_d i_d out_d ds rest Hcp)
    as [Hov|(n2 & i2 & o2 & (Ho2 & Heq2 & Hfirst2 & Hi2 & Hnd2 & Hbias2) & Hrun2)];
    try assumption.
  - cbn [length]. lia.
  - unfold dec_rel, st_m. cbn [enc_n enc_delta enc_handledCPCount enc_bias filter length].
    rewrite handled_nil_l, Hfilter. rewrite handled_nil_l in Ho.
    cbn [filter length] in Heq.
    repeat split; try assumption; lia.
  - left. exact Hov.
  - right. exists n2, i2, o2. split; [|exact Hrun2].
    cbn [app] in *. rewrite Hn2 in *. rewrite handled_nil_r in Ho2.
    unfold dec_rel. cbn [enc_n enc_delta enc_handledCPCount enc_bias filter length].
    rewrite handled_nil_l, filter_lt_succ.
    repeat split; try assumption; lia.
Qed.

(** * The main loop, read back *)

Lemma encode_loop_sim (codePoints : list Z) (basicLength : Z) (fuel : nat) :
  Forall is_code_point codePoints ->
  forall st n_d i_d out_d output ds,
    head_inv codePoints basicLength st ->
    dec_rel basicLength [] codePoints st n_d i_d out_d ->
    encode_loop fuel codePoints basicLength st = Ok output ->
    output = enc_output st ++ ds ->
    (decode_run ds n_d i_d (enc_bias st) out_d = Throw Overflow /\
     2147483648 < Z.of_nat (length codePoints) * 1114112) \/
    decode_run ds n_d i_d (enc_bias st) out_d = Ok codePoints.
Proof.
  intros Hcp.
  assert (Hexit : forall st n_d i_d out_d ds,
             head_inv codePoints basicLength st ->
             dec_rel basicLength [] codePoints st n_d i_d out_d ->
             Z.of_nat (length codePoints) <= enc_handledCPCount st ->
             enc_output st = enc_output st ++ ds ->
             decode_run ds n_d i_d (enc_bias st) out_d = Ok codePoints).
  { intros st n_d i_d out_d ds (Hh & _) (Ho & _) Hge Hout.
    rewrite <- (app_nil_r (enc_output st)) in Hout at 1.
    apply app_inv_head in Hout. subst ds.
    rewrite decode_run_nil, Ho, handled_nil_l. f_equal.
    apply filter_length_all. lia. }
  induction fuel as [|fuel IH]; intros st n_d i_d out_d output ds Hinv Hrel He Hout;
    cbn [encode_loop] in He;
    destruct (Z.ltb_spec (enc_handledCPCount st) (Z.of_nat (length codePoints))) as [Hlt|Hge];
    try discriminate.
  - injection He as <-. right. eapply Hexit; eassumption.
  - destruct (encode_iteration_inv codePoints basicLength st Hcp Hinv Hlt)
      as [E|(st1 & E & Hinv1 & _ & ds1 & Hout1 & _)];
      rewrite E in He; cbn [bind] in He; [discriminate|].
    destruct (encode_loop_shape codePoints basicLength fuel Hcp st1 output Hinv1 He)
      as (ds2 & Hout2 & _).
    assert (Hds : ds = ds1 ++ ds2).
    { rewrite Hout2, Hout1, <- app_assoc in Hout. apply app_inv_head in Hout. auto. }
    subst ds.
    destruct (encode_iteration_sim codePoints basicLength st st1 n_d i_d out_d ds1 ds2
                Hcp Hinv Hrel Hlt E Hout1) as [Hov|(n1 & i1 & o1 & Hrel1 & Hrun1)].
    + left. exact Hov.
    + rewrite Hrun1. apply (IH st1 n1 i1 o1 output ds2 Hinv1 Hrel1 He Hout2).
  - injection He as <-. right. eapply Hexit; eassumption.
Qed.

(** * From code points back to the string *)

Lemma fromCodePoint_ucs2decode_aux (len : nat) :
  forall s, (length s <= len)%nat -> is_string s = true ->
            fromCodePoint (ucs2decode s) = Ok s.
Proof.
  induction len as [|len IH]; intros s Hlen Hs.
  - destruct s; [reflexivity|simpl in Hlen; lia].
  - destruct s as [|first rest]; [reflexivity|].
    apply is_string_cons in Hs. destruct Hs as [Hu Hrest].
    cbn [ucs2decode]. destruct rest as [|second rest'].
    + cbn [fromCodePoint bind].
      destruct (Z.ltb_spec first 0); [lia|]. destruct (Z.ltb_spec 1114111 first); [lia|].
      cbn [orb]. destruct (Z.leb_spec first 65535); [reflexivity|lia].
    + destruct (isHighSurrogate first && isLowSurrogate second) eqn:E.
      * apply andb_true_iff in E. destruct E as [E1 E2].
        unfold isHighSurrogate, isLowSurrogate in *.
        apply andb_true_iff in E1, E2. rewrite !Z.leb_le in E1, E2.
        pose proof Hrest as Hrest'. apply is_string_cons in Hrest'.
        set (cp := (first - 55296) * 1024 + (second - 56320) + 65536).
        cbn [fromCodePoint].
        destruct (Z.ltb_spec cp 0); [unfold cp in *; lia|].
        destruct (Z.ltb_spec 1114111 cp); [unfold cp in *; lia|].
        cbn [orb]. rewrite IH by (simpl in Hlen |- *; (lia || tauto)).
        cbn [bind]. destruct (Z.leb_spec cp 65535); [unfold cp in *; lia|].
        replace (cp - 65536) with ((first - 55296) * 1024 + (second - 56320))
          by (unfold cp; lia).
        rewrite Z.shiftr_div_pow2 by lia. change (2 ^ 10) with 1024.
        change 1023 with (Z.ones 10). rewrite Z.land_ones by lia. change (2 ^ 10) with 1024.
        replace (((first - 55296) * 1024 + (second - 56320)) / 1024) with (first - 55296)
          by (apply Z.div_unique with (r := second - 56320); lia).
        replace (((first - 55296) * 1024 + (second - 56320)) mod 1024) with (second - 56320)
          by (apply Z.mod_unique with (q := first - 55296); lia).
        do 3 f_equal; lia.
      * cbn [fromCodePoint].
        destruct (Z.ltb_spec first 0); [lia|]. destruct (Z.ltb_spec 1114111 first); [lia|].
        cbn [orb]. rewrite IH by (simpl in Hlen |- *; (lia || assumption)).
        cbn [bind]. destruct (Z.leb_spec first 65535); [reflexivity|lia].
Qed.

Lemma fromCodePoint_ucs2decode (s : jsstring) :
  is_string s = true -> fromCodePoint (ucs2decode s) = Ok s.
Proof. apply (fromCodePoint_ucs2decode_aux (length s)). lia. Qed.

(** * [decode] on what [encode] returns *)

Lemma digits_no_delimiter (ds : jsstring) :
  Forall is_digit_unit ds -> ~ In delimiter ds.
Proof.
  intros H Hin. rewrite Forall_forall in H. specialize (H _ Hin).
  unfold is_digit_unit, delimiter in H. lia.
Qed.

Lemma decode_of_encoded (basics ds : jsstring) :
  Forall is_basic basics ->
  Forall is_digit_unit ds ->
  decode ((if Z.of_nat (length basics) >? 0 then basics ++ [delimiter] else basics) ++ ds)
  = (output <- decode_run ds initialN 0 initialBias basics ;; fromCodePoint output).
Proof.
  intros Hb Hds. pose proof (digits_no_delimiter ds Hds) as Hnd.
  rewrite decode_unfold. destruct basics as [|b0 basics].
  - cbn [length Z.of_nat Z.gtb Z.compare app].
    rewrite lastIndexOf_absent by exact Hnd. reflexivity.
  - set (bs := b0 :: basics) in *.
    destruct (Z.gtb_spec (Z.of_nat (length bs)) 0) as [Hpos|Hneg];
      [|unfold bs in Hneg; cbn [length] in Hneg; lia].
    rewrite <- app_assoc. cbn [app].
    rewrite lastIndexOf_last by exact Hnd. cbv zeta.
    destruct (Z.ltb_spec (Z.of_nat (length bs)) 0); [lia|].
    destruct (Z.gtb_spec (Z.of_nat (length bs)) 0); [|lia].
    rewrite Nat2Z.id.
    rewrite firstn_app, Nat.sub_diag, firstn_all. cbn [firstn]. rewrite app_nil_r.
    rewrite decode_basic_spec by exact Hb. cbn [bind app].
    replace (Z.to_nat (Z.of_nat (length bs) + 1)) with (length bs + 1)%nat by lia.
    rewrite skipn_app.
    replace (length bs + 1 - length bs)%nat with 1%nat by lia.
    rewrite skipn_all2 by lia. reflexivity.
Qed.

Lemma encode_init_rel (codePoints : list Z) :
  Forall is_code_point codePoints ->
  dec_rel (encode_basicLength codePoints) [] codePoints (encode_init codePoints)
    initialN 0 (filter (fun c => c <? 128) codePoints).
Proof.
  intros Hcp. unfold dec_rel, encode_init, encode_basicLength.
  cbn [enc_n enc_delta enc_handledCPCount enc_bias filter length].
  rewrite Z.eqb_refl. unfold initialN, initialBias.
  rewrite handled_nil_l. repeat split; try reflexivity; lia.
Qed.

(** C1, as the code has it: [decode] gives back every string of at most
    [spread_limit] code points that [encode] accepts, or throws [Overflow];
    it gives the string back whenever the string has at most 1927 code
    points.  (On a string above the bound of the engine on the arguments of
    a call, [String.fromCodePoint(...output)] at the end of [decode] throws
    the engine's [RangeError].) *)
Theorem decode_encode (input encoded : jsstring) :
  is_string input = true ->
  encode input = Ok encoded ->
  (Z.of_nat (length (ucs2decode input)) <= spread_limit ->
   decode encoded = Ok input \/ decode encoded = Throw Overflow) /\
  (Z.of_nat (length (ucs2decode input)) <= 1927 -> decode encoded = Ok input).
Proof.
  intros Hs He.
  pose proof (ucs2decode_code_points input Hs) as Hcp.
  pose proof (encode_init_inv _ Hcp) as Hinv.
  pose proof (encode_init_rel _ Hcp) as Hrel.
  rewrite encode_unfold in He.
  destruct (encode_loop_shape _ _ _ Hcp _ _ Hinv He) as (ds & Hout & Hds).
  pose proof (encode_loop_sim _ _ _ Hcp _ _ _ _ _ ds Hinv Hrel He Hout) as Hsim.
  assert (Hdec : decode encoded
                 = (output <- decode_run ds initialN 0 initialBias
                                (filter (fun c => c <? 128) (ucs2decode input)) ;;
                    fromCodePoint output)).
  { rewrite Hout. unfold encode_init. cbn [enc_output].
    rewrite encode_basic_spec by exact Hcp. cbn [app].
    apply decode_of_encoded; [|exact Hds].
    rewrite Forall_forall in *. intros c Hc. apply filter_In in Hc.
    destruct Hc as [Hc Hlt]. apply Z.ltb_lt in Hlt.
    specialize (Hcp c Hc). unfold is_code_point, is_basic in *. lia. }
  rewrite Hdec. change (enc_bias (encode_init (ucs2decode input))) with initialBias in Hsim.
  destruct Hsim as [[Hov Hbig]|Hok].
  - rewrite Hov. cbn [bind]. split; [intros _; right; reflexivity|]. intros Hsmall. lia.
  - rewrite Hok. cbn [bind]. rewrite fromCodePoint_ucs2decode by exact Hs.
    split; [intros _; left; reflexivity|reflexivity].
Qed.

Lemma decode_encode_witness :
  (decode (units "maana-pta") = Ok (units "ma" ++ [241] ++ units "ana") \/
   decode (units "maana-pta") = Throw Overflow) /\
  decode (units "maana-pta") = Ok (units "ma" ++ [241] ++ units "ana").
Proof.
  split.
  - apply (proj1 (decode_encode (units "ma" ++ [241] ++ units "ana") (units "maana-pta")
                    eq_refl eq_refl)).
    vm_compute. discriminate.
  - apply (proj2 (decode_encode (units "ma" ++ [241] ++ units "ana") (units "maana-pta")
                    eq_refl eq_refl)).
    vm_compute. discriminate.
Defined.

(** The round trip fails on [overflow_input], a string of 2048 code
    points.  [encode] accepts it: the second delta is
    1 + (0x100080 - 0x81) * 2048 = 2147481601, below [maxInt].  [decode]
    starts reading that delta from [i = 2047], and 2047 + 2147481601 is
    above [maxInt]: it throws in its main loop, before
    [String.fromCodePoint] is called. *)
Lemma decode_encode_overflow :
  is_string overflow_input = true /\
  encode overflow_input = Ok overflow_encoded /\
  decode overflow_encoded = Throw Overflow.
Proof.
  repeat split; vm_compute; reflexivity.
Qed.


(** * [split] and [join] *)

Lemma split_nonempty (sep : Z) (s : jsstring) : split sep s <> [].
Proof.
  destruct s as [|c s]; cbn [split]; [discriminate|].
  destruct (c =? sep); [discriminate|]. destruct (split sep s); discriminate.
Qed.

Lemma split_absent (sep : Z) (s : jsstring) : ~ In sep s -> split sep s = [s].
Proof.
  induction s as [|c s IH]; intros H; cbn [split]; [reflexivity|].
  destruct (Z.eqb_spec c sep) as [->|_]; [exfalso; apply H; left; reflexivity|].
  rewrite IH; [reflexivity|]. intros Hin. apply H. right. exact Hin.
Qed.

Lemma split_app (sep : Z) (p d : jsstring) :
  ~ In sep p -> split sep (p ++ sep :: d) = p :: split sep d.
Proof.
  induction p as [|c p IH]; intros H; cbn [app split].
  - rewrite Z.eqb_refl. reflexivity.
  - destruct (Z.eqb_spec c sep) as [->|_]; [exfalso; apply H; left; reflexivity|].
    rewrite IH; [reflexivity|]. intros Hin. apply H. right. exact Hin.
Qed.

Lemma split_parts (sep : Z) (s : jsstring) :
  Forall (fun p => ~ In sep p) (split sep s).
Proof.
  induction s as [|c s IH]; cbn [split].
  - constructor; [intros []|constructor].
  - destruct (Z.eqb_spec c sep) as [->|Hne].
    + constructor; [intros []|exact IH].
    + destruct (split sep s) as [|hd tl]; [constructor; [|constructor]|].
      * intros [H|[]]. congruence.
      * inversion IH as [|? ? Hhd Htl]; subst. constructor; [|exact Htl].
        intros [H|H]; [congruence|contradiction].
Qed.

Lemma join_split (sep : Z) (s : jsstring) : join sep (split sep s) = s.
Proof.
  induction s as [|c s IH]; cbn [split]; [reflexivity|].
  destruct (Z.eqb_spec c sep) as [->|Hne].
  - pose proof (split_nonempty sep s) as Hne.
    cbn [join]. destruct (split sep s) as [|hd tl]; [contradiction|].
    cbn [app]. rewrite IH. reflexivity.
  - pose proof (split_nonempty sep s) as Hnil.
    destruct (split sep s) as [|hd tl]; [contradiction|].
    cbn [join] in *. destruct tl; cbn [app]; rewrite IH; reflexivity.
Qed.

Lemma split_join (sep : Z) (parts : list jsstring) :
  parts <> [] ->
  Forall (fun p => ~ In sep p) parts ->
  split sep (join sep parts) = parts.
Proof.
  induction parts as [|p parts IH]; intros Hne Hall; [contradiction|].
  inversion Hall as [|? ? Hp Hparts]; subst.
  destruct parts as [|p' parts].
  - cbn [join]. apply split_absent. exact Hp.
  - change (join sep (p :: p' :: parts)) with (p ++ sep :: join sep (p' :: parts)).
    rewrite split_app by exact Hp. rewrite IH; [reflexivity|discriminate|exact Hparts].
Qed.

Lemma split_length_present (sep : Z) (s : jsstring) :
  In sep s -> (1 < length (split sep s))%nat.
Proof.
  induction s as [|c s IH]; intros H; [contradiction|]. cbn [split].
  pose proof (split_nonempty sep s) as Hne.
  destruct (Z.eqb_spec c sep) as [->|Hc].
  - destruct (split sep s); [contradiction|]. simpl. lia.
  - destruct H as [H|H]; [congruence|]. specialize (IH H).
    destruct (split sep s); [contradiction|]. simpl in *. lia.
Qed.

(** * A callback that may throw *)

Lemma map_throwing_ok {A B : Type} (callback : A -> outcome B) (l : list A) (bs : list B) :
  map_throwing callback l = Ok bs <-> Forall2 (fun a b => callback a = Ok b) l bs.
Proof.
  revert bs. induction l as [|a l IH]; intros bs; cbn [map_throwing].
  - split; [intros H; injection H as <-; constructor|intros H; inversion H; reflexivity].
  - split.
    + destruct (callback a) as [b| |] eqn:E; cbn [bind]; try discriminate.
      destruct (map_throwing callback l) as [bs'| |]; cbn [bind]; try discriminate.
      intros H. injection H as <-. constructor; [exact E|]. apply IH. reflexivity.
    + intros H. inversion H as [|? b ? bs' Hb Hbs]; subst.
      rewrite Hb. cbn [bind]. apply IH in Hbs. rewrite Hbs. reflexivity.
Qed.

Lemma map_throwing_first (A B : Type) (callback : A -> outcome B)
  (before : list A) (a : A) (after : list A) (e : error) :
  Forall (fun x => exists b, callback x = Ok b) before ->
  callback a = Throw e ->
  map_throwing callback (before ++ a :: after) = Throw e.
Proof.
  induction 1 as [|x before (b & Hx) _ IH]; intros Ha; cbn [app map_throwing].
  - rewrite Ha. reflexivity.
  - rewrite Hx. cbn [bind]. rewrite (IH Ha). reflexivity.
Qed.


(** * The fixtures *)

(** C7: the three end-to-end fixtures. *)
Theorem facade_fixtures (unicodeToLowerCase : jsstring -> jsstring) :
  toASCII manana_com = Ok (units "xn--maana-pta.com") /\
  toUnicode unicodeToLowerCase (units "xn--maana-pta.com") = Ok manana_com /\
  toASCII user_facade_com = Ok (units "user@xn--faade-zra.com").
Proof. repeat split; vm_compute; reflexivity. Qed.

(** * More than one [@] *)

(** What [mapDomain] does with a second [@]: the text between the first
    and the second [@] is the domain, and the second [@] and everything after
    it are dropped. *)
Lemma mapDomain_second_at (local domain tail : jsstring)
  (callback : jsstring -> outcome jsstring) :
  ~ In 64 local -> ~ In 64 domain ->
  mapDomain (local ++ 64 :: domain ++ 64 :: tail) callback
  = mapDomain (local ++ 64 :: domain) callback.
Proof.
  intros Hl Hd. unfold mapDomain, mapDomain_result, mapDomain_labels.
  rewrite !split_app by assumption.
  rewrite (split_absent 64 domain) by assumption.
  pose proof (split_nonempty 64 tail) as Hne.
  destruct (split 64 tail) as [|t ts]; [contradiction|]. reflexivity.
Qed.

(** C2, on the input [a@b@c]: [toASCII] and [toUnicode] return [a@b]; the
    second [@] and the [c] after it are not in the output. *)
Theorem facade_second_at (unicodeToLowerCase : jsstring -> jsstring) :
  toASCII (units "a@b@c") = Ok (units "a@b") /\
  toUnicode unicodeToLowerCase (units "a@b@c") = Ok (units "a@b").
Proof. split; vm_compute; reflexivity. Qed.

(** * The prefix test of [toUnicode] *)

Lemma regexPunycode_test_spec (str : jsstring) :
  regexPunycode_test str = true <-> firstn 4 str = xn_prefix.
Proof.
  unfold regexPunycode_test, xn_prefix.
  destruct str as [|c1 [|c2 [|c3 [|c4 rest]]]]; cbn [firstn];
    try (split; discriminate).
  rewrite !andb_true_iff, !Z.eqb_eq. split.
  - intros [[[-> ->] ->] ->]. reflexivity.
  - intros H. injection H as -> -> -> ->. auto.
Qed.

(** C3 fails on the label [XN--maana-pta]: it starts with [xn--] when case
    is ignored, and [toUnicode] hands it back as it is, although the text
    after the prefix decodes. *)
Lemma toUnicode_uppercase_prefix :
  spec_starts_with_xn (units "XN--maana-pta") = true /\
  mapDomain_labels (units "XN--maana-pta.com") = [units "XN--maana-pta"; units "com"] /\
  (forall unicodeToLowerCase,
      toUnicode unicodeToLowerCase (units "XN--maana-pta.com")
      = Ok (units "XN--maana-pta.com")) /\
  (forall unicodeToLowerCase,
      decode (toLowerCase unicodeToLowerCase (slice4 (units "XN--maana-pta")))
      = Ok manana) /\
  manana <> units "XN--maana-pta".
Proof.
  split; [reflexivity|]. split; [reflexivity|].
  split; [intros f; vm_compute; reflexivity|].
  split; [intros f; vm_compute; reflexivity|].
  vm_compute. discriminate.
Qed.

Lemma mapDomain_ok (domain : jsstring) (callback : jsstring -> outcome jsstring)
  (output : jsstring) :
  mapDomain domain callback = Ok output <->
  exists outs,
    Forall2 (fun label out => callback label = Ok out) (mapDomain_labels domain) outs /\
    output = mapDomain_result domain ++ join 46 outs.
Proof.
  unfold mapDomain. split.
  - destruct (map_throwing callback (mapDomain_labels domain)) as [outs| |] eqn:E;
      cbn [bind]; try discriminate.
    intros H. injection H as <-. exists outs. split; [|reflexivity].
    apply map_throwing_ok. exact E.
  - intros (outs & Hall & ->). apply map_throwing_ok in Hall. rewrite Hall. reflexivity.
Qed.

(** C3, as the code has it: [toUnicode] decodes a label exactly when its
    first four units are [xn--], in lower case; every other label, one that
    starts with [XN--], [Xn--] or [xN--] too, is handed back as it is. *)
Theorem toUnicode_decodes_xn_labels (unicodeToLowerCase : jsstring -> jsstring) :
  (forall label,
      firstn 4 label = xn_prefix ->
      toUnicode_label unicodeToLowerCase label
      = decode (toLowerCase unicodeToLowerCase (slice4 label))) /\
  (forall label,
      firstn 4 label <> xn_prefix ->
      toUnicode_label unicodeToLowerCase label = Ok label) /\
  (forall input output,
      toUnicode unicodeToLowerCase input = Ok output <->
      exists outs,
        Forall2 (fun label out => toUnicode_label unicodeToLowerCase label = Ok out)
          (mapDomain_labels input) outs /\
        output = mapDomain_result input ++ join 46 outs).
Proof.
  split; [|split].
  - intros label H. apply regexPunycode_test_spec in H.
    unfold toUnicode_label. rewrite H. reflexivity.
  - intros label H. unfold toUnicode_label.
    destruct (regexPunycode_test label) eqn:E; [|reflexivity].
    apply regexPunycode_test_spec in E. contradiction.
  - intros input output. apply mapDomain_ok.
Qed.

(** * Errors *)

Lemma mapDomain_first_error (domain : jsstring) (callback : jsstring -> outcome jsstring)
  (before : list jsstring) (label : jsstring) (after : list jsstring) (e : error) :
  mapDomain_labels domain = before ++ label :: after ->
  Forall (fun l => exists out, callback l = Ok out) before ->
  callback label = Throw e ->
  mapDomain domain callback = Throw e.
Proof.
  intros Hl Hb He. unfold mapDomain. rewrite Hl.
  rewrite (map_throwing_first _ _ callback before label after e Hb He). reflexivity.
Qed.


(** * The labels of a string *)

Lemma is_string_forall (s : jsstring) :
  is_string s = true <-> forall u, In u s -> 0 <= u < 65536.
Proof.
  unfold is_string. rewrite forallb_forall. unfold is_unit.
  split; intros H u Hu; specialize (H u Hu).
  - apply andb_true_iff in H. rewrite Z.leb_le, Z.ltb_lt in H. exact H.
  - apply andb_true_iff. rewrite Z.leb_le, Z.ltb_lt. exact H.
Qed.

Lemma split_In (sep : Z) (s : jsstring) :
  forall p, In p (split sep s) -> forall u, In u p -> In u s.
Proof.
  induction s as [|c s IH]; cbn [split]; intros p Hp u Hu.
  - destruct Hp as [<-|[]]. exact Hu.
  - destruct (c =? sep).
    + destruct Hp as [<-|Hp]; [contradiction|]. right. exact (IH p Hp u Hu).
    + pose proof (split_nonempty sep s) as Hne.
      destruct (split sep s) as [|hd tl]; [contradiction|].
      destruct Hp as [<-|Hp].
      * destruct Hu as [<-|Hu]; [left; reflexivity|].
        right. apply (IH hd); [left; reflexivity|exact Hu].
      * right. apply (IH p); [right; exact Hp|exact Hu].
Qed.

Lemma join_In (sep : Z) (parts : list jsstring) (u : Z) :
  In u (join sep parts) -> u = sep \/ exists p, In p parts /\ In u p.
Proof.
  induction parts as [|p parts IH]; intros H; [contradiction|].
  destruct parts as [|p' parts].
  - right. exists p. split; [left; reflexivity|exact H].
  - change (join sep (p :: p' :: parts)) with (p ++ sep :: join sep (p' :: parts)) in H.
    apply in_app_or in H. destruct H as [H|[H|H]].
    + right. exists p. split; [left; reflexivity|exact H].
    + left. auto.
    + destruct (IH H) as [->|(q & Hq & Hu)]; [left; reflexivity|].
      right. exists q. split; [right; exact Hq|exact Hu].
Qed.

(** The text [mapDomain] splits into labels has no [@], and its units are
    units of the input. *)
Lemma mapDomain_domain (domain : jsstring) :
  let parts := split 64 domain in
  let domain' := if (1 <? length parts)%nat then nth 1 parts [] else domain in
  ~ In 64 domain' /\ forall u, In u domain' -> In u domain.
Proof.
  cbv zeta. destruct (Nat.ltb_spec 1 (length (split 64 domain))) as [Hlt|Hge].
  - pose proof (nth_In (split 64 domain) [] Hlt) as Hin. split.
    + pose proof (split_parts 64 domain) as Hp. rewrite Forall_forall in Hp.
      apply Hp. exact Hin.
    + intros u Hu. exact (split_In 64 domain _ Hin u Hu).
  - split; [|auto]. intros Hin. apply split_length_present in Hin. lia.
Qed.

Lemma replaceSeparators_In (domain : jsstring) (u : Z) :
  In u (replaceSeparators domain) -> u = 46 \/ In u domain.
Proof.
  unfold replaceSeparators. rewrite in_map_iff. intros (v & <- & Hv).
  destruct (isSeparator v); auto.
Qed.

Lemma mapDomain_labels_units (domain : jsstring) :
  is_string domain = true ->
  Forall (fun l => is_string l = true /\ ~ In 46 l /\ ~ In 64 l) (mapDomain_labels domain).
Proof.
  intros Hs. rewrite is_string_forall in Hs.
  destruct (mapDomain_domain domain) as [H64 Hsub]. unfold mapDomain_labels.
  set (d := if (1 <? length (split 64 domain))%nat then _ else _) in *.
  pose proof (split_parts 46 (replaceSeparators d)) as Hparts.
  rewrite Forall_forall in *. intros l Hl. split; [|split].
  - apply is_string_forall. intros u Hu.
    pose proof (split_In 46 _ l Hl u Hu) as Hin.
    apply replaceSeparators_In in Hin. destruct Hin as [->|Hin]; [lia|auto].
  - apply Hparts. exact Hl.
  - intros Hu. pose proof (split_In 46 _ l Hl 64 Hu) as Hin.
    apply replaceSeparators_In in Hin. destruct Hin as [Hin|Hin]; [lia|contradiction].
Qed.





(** * What [toASCII] returns *)

Lemma ucs2decode_In_aux (len : nat) :
  forall s c, (length s <= len)%nat -> In c (ucs2decode s) -> In c s \/ 65536 <= c.
Proof.
  induction len as [|len IH]; intros s c Hlen Hin.
  - destruct s; [contradiction|simpl in Hlen; lia].
  - destruct s as [|first rest]; [contradiction|].
    cbn [ucs2decode] in Hin. destruct rest as [|second rest'].
    + left. exact Hin.
    + destruct (isHighSurrogate first && isLowSurrogate second) eqn:E.
      * destruct Hin as [<-|Hin].
        -- right. apply andb_true_iff in E. destruct E as [E1 E2].
           unfold isHighSurrogate, isLowSurrogate in *.
           apply andb_true_iff in E1, E2. rewrite !Z.leb_le in E1, E2. lia.
        -- destruct (IH rest' c) as [H|H]; [simpl in Hlen; lia|exact Hin| |].
           ++ left. right. right. exact H.
           ++ right. exact H.
      * destruct Hin as [<-|Hin]; [left; left; reflexivity|].
        destruct (IH (second :: rest') c) as [H|H]; [simpl in Hlen |- *; lia|exact Hin| |].
        -- left. right. exact H.
        -- right. exact H.
Qed.

Lemma ucs2decode_In (s : jsstring) (c : Z) :
  In c (ucs2decode s) -> In c s \/ 65536 <= c.
Proof. apply (ucs2decode_In_aux (length s)). lia. Qed.

Lemma encode_shape (input encoded : jsstring) :
  is_string input = true ->
  encode input = Ok encoded ->
  exists ds,
    encoded
    = (if Z.of_nat (length (filter (fun c => c <? 128) (ucs2decode input))) >? 0
       then filter (fun c => c <? 128) (ucs2decode input) ++ [delimiter]
       else filter (fun c => c <? 128) (ucs2decode input)) ++ ds /\
    Forall is_digit_unit ds /\
    Forall is_basic encoded.
Proof.
  intros Hs He. destruct (encode_parts input encoded Hs He) as (ds & -> & Hinit & Hds).
  exists ds. split; [|split; [exact Hds|]].
  - unfold encode_init. cbn [enc_output].
    rewrite encode_basic_spec by (apply ucs2decode_code_points; exact Hs). reflexivity.
  - rewrite Forall_app. split; [exact Hinit|].
    eapply Forall_impl; [|exact Hds]. apply is_digit_unit_basic.
Qed.

Lemma regexNonASCII_test_false (str : jsstring) :
  regexNonASCII_test str = false <-> Forall is_basic str.
Proof.
  unfold regexNonASCII_test. rewrite Forall_forall. split.
  - intros H u Hu. destruct (Z.leb_spec 0 u), (Z.leb_spec u 127);
      try (unfold is_basic; lia);
      exfalso; assert (existsb (fun u => negb ((0 <=? u) && (u <=? 127))) str = true);
      try congruence; apply existsb_exists; exists u; split; try exact Hu;
      apply negb_true_iff, andb_false_iff; rewrite Z.leb_gt, Z.leb_gt; lia.
  - intros H. destruct (existsb _ str) eqn:E; [|reflexivity].
    apply existsb_exists in E. destruct E as (u & Hu & Hneg).
    specialize (H u Hu). unfold is_basic in H.
    apply negb_true_iff, andb_false_iff in Hneg. rewrite !Z.leb_gt in Hneg. lia.
Qed.

(** A label [toASCII] has dealt with is ASCII, and has no [.] and no [@]
    when the label given had none. *)
Lemma toASCII_label_out (label out : jsstring) :
  is_string label = true -> ~ In 46 label -> ~ In 64 label ->
  toASCII_label label = Ok out ->
  Forall is_basic out /\ ~ In 46 out /\ ~ In 64 out.
Proof.
  intros Hs H46 H64. unfold toASCII_label.
  destruct (regexNonASCII_test label) eqn:Etest.
  - destruct (encode label) as [e| |] eqn:He; cbn [bind]; try discriminate.
    intros H. injection H as <-.
    destruct (encode_shape label e Hs He) as (ds & Hshape & Hds & Hbasic).
    rewrite Hshape in Hbasic. clear He. subst e.
    set (basics := filter (fun c => c <? 128) (ucs2decode label)) in *.
    assert (Hb : forall u, In u basics -> In u label).
    { intros u Hu. apply filter_In in Hu. destruct Hu as [Hu Hlt].
      apply Z.ltb_lt in Hlt. apply ucs2decode_In in Hu. destruct Hu; [assumption|lia]. }
    assert (Hunits : forall u, In u (xn_prefix
                        ++ (if Z.of_nat (length basics) >? 0
                            then basics ++ [delimiter] else basics) ++ ds) ->
                     u <> 46 /\ u <> 64).
    { intros u Hu. apply in_app_or in Hu. destruct Hu as [Hu|Hu].
      - unfold xn_prefix in Hu. simpl in Hu. lia.
      - apply in_app_or in Hu. destruct Hu as [Hu|Hu].
        + assert (Hu' : In u basics \/ u = delimiter).
          { destruct (_ >? 0); [|auto]. apply in_app_or in Hu.
            destruct Hu as [Hu|[Hu|[]]]; auto. }
          destruct Hu' as [Hu'| ->]; [|unfold delimiter; lia].
          apply Hb in Hu'. split; intros ->; contradiction.
        + rewrite Forall_forall in Hds. specialize (Hds u Hu).
          unfold is_digit_unit in Hds. lia. }
    split; [|split].
    + repeat (constructor; [unfold is_basic; lia|]). exact Hbasic.
    + intros H. pose proof (Hunits 46 H). lia.
    + intros H. pose proof (Hunits 64 H). lia.
  - intros H. injection H as <-. apply regexNonASCII_test_false in Etest. auto.
Qed.

Lemma replaceSeparators_id (domain : jsstring) :
  Forall (fun u => isSeparator u = true -> u = 46) domain ->
  replaceSeparators domain = domain.
Proof.
  induction 1 as [|u l Hu Hl IH]; [reflexivity|].
  unfold replaceSeparators in *. cbn [map]. rewrite IH. f_equal.
  destruct (isSeparator u); [symmetry; auto|reflexivity].
Qed.

Lemma isSeparator_basic (u : Z) : is_basic u -> isSeparator u = true -> u = 46.
Proof.
  unfold is_basic, isSeparator. intros H.
  rewrite !orb_true_iff, !Z.eqb_eq. lia.
Qed.

(** [mapDomain] on a text that has its [@] and its separators in place:
    an optional part without [@], an [@], and labels without [@] and
    separators, joined by [.]. *)
Lemma mapDomain_rejoined (result : jsstring) (labels : list jsstring) :
  labels <> [] ->
  (result = [] \/ exists local, result = local ++ [64] /\ ~ In 64 local) ->
  Forall (fun l => ~ In 64 l /\ ~ In 46 l /\
                   Forall (fun u => isSeparator u = true -> u = 46) l) labels ->
  mapDomain_result (result ++ join 46 labels) = result /\
  mapDomain_labels (result ++ join 46 labels) = labels.
Proof.
  intros Hne Hres Hall. rewrite Forall_forall in Hall.
  assert (H64 : ~ In 64 (join 46 labels)).
  { intros H. apply join_In in H. destruct H as [H|(p & Hp & Hu)]; [lia|].
    destruct (Hall p Hp) as (H1 & _). exact (H1 Hu). }
  assert (Hsep : replaceSeparators (join 46 labels) = join 46 labels).
  { apply replaceSeparators_id. rewrite Forall_forall. intros u Hu Hs.
    apply join_In in Hu. destruct Hu as [->|(p & Hp & Hu)]; [reflexivity|].
    destruct (Hall p Hp) as (_ & _ & Hp3). rewrite Forall_forall in Hp3. auto. }
  assert (Hsplit : split 46 (join 46 labels) = labels).
  { apply split_join; [exact Hne|]. rewrite Forall_forall. intros p Hp.
    destruct (Hall p Hp) as (_ & H2 & _). exact H2. }
  unfold mapDomain_result, mapDomain_labels.
  destruct Hres as [->|(local & -> & Hlocal)].
  - cbn [app]. rewrite split_absent by exact H64. cbn [length Nat.ltb Nat.leb].
    rewrite Hsep, Hsplit. auto.
  - rewrite <- app_assoc. cbn [app]. rewrite split_app by exact Hlocal.
    rewrite split_absent by exact H64. cbn [length Nat.ltb Nat.leb nth].
    rewrite Hsep, Hsplit. auto.
Qed.

Lemma mapDomain_result_shape (domain : jsstring) :
  mapDomain_result domain = [] \/
  exists local, mapDomain_result domain = local ++ [64] /\ ~ In 64 local.
Proof.
  unfold mapDomain_result.
  destruct (Nat.ltb_spec 1 (length (split 64 domain))) as [Hlt|Hge]; [|left; reflexivity].
  right. exists (nth 0 (split 64 domain) []). split; [reflexivity|].
  pose proof (split_parts 64 domain) as Hp. rewrite Forall_forall in Hp.
  apply Hp. apply nth_In. lia.
Qed.

Lemma Forall2_nonempty {A B : Type} (R : A -> B -> Prop) (l : list A) (l' : list B) :
  Forall2 R l l' -> l <> [] -> l' <> [].
Proof. intros H Hne. destruct H; [contradiction|discriminate]. Qed.

Lemma toASCII_idempotent (x y : jsstring) :
  is_string x = true -> toASCII x = Ok y -> toASCII y = Ok y.
Proof.
  intros Hs Hx. unfold toASCII in *. apply mapDomain_ok in Hx.
  destruct Hx as (outs & Hall & ->).
  pose proof (mapDomain_labels_units x Hs) as Hlabels.
  assert (Hne : outs <> []).
  { apply (Forall2_nonempty _ _ _ Hall). apply split_nonempty. }
  assert (Houts : Forall (fun o => Forall is_basic o /\ ~ In 46 o /\ ~ In 64 o) outs).
  { clear Hne. induction Hall as [|l o ls os Hlo _ IH]; [constructor|].
    inversion Hlabels as [|? ? (H1 & H2 & H3) Hrest]; subst.
    constructor; [|apply IH; exact Hrest].
    apply (toASCII_label_out l o); assumption. }
  destruct (mapDomain_rejoined (mapDomain_result x) outs Hne
              (mapDomain_result_shape x)) as [Hres Hlab].
  { eapply Forall_impl; [|exact Houts]. intros o (H1 & H2 & H3).
    split; [exact H3|]. split; [exact H2|].
    eapply Forall_impl; [|exact H1]. intros u. apply isSeparator_basic. }
  apply mapDomain_ok. exists outs. rewrite Hres, Hlab. split; [|reflexivity].
  clear -Houts. induction Houts as [|o os (H1 & _) _ IH]; constructor; [|exact IH].
  unfold toASCII_label. apply regexNonASCII_test_false in H1. rewrite H1. reflexivity.
Qed.

(** * What [toUnicode] leaves as it is *)

Lemma toUnicode_fixpoint (unicodeToLowerCase : jsstring -> jsstring) (y : jsstring) :
  (length (split 64 y) <= 2)%nat ->
  Forall (fun u => isSeparator u = true -> u = 46) y ->
  Forall (fun l => regexPunycode_test l = false) (mapDomain_labels y) ->
  toUnicode unicodeToLowerCase y = Ok y.
Proof.
  intros Hat Hsep Hlabels. unfold toUnicode. apply mapDomain_ok.
  exists (mapDomain_labels y). split.
  - clear -Hlabels. induction Hlabels as [|l ls Hl _ IH]; constructor; [|exact IH].
    unfold toUnicode_label. rewrite Hl. reflexivity.
  - unfold mapDomain_result, mapDomain_labels.
    pose proof (join_split 64 y) as Hjoin.
    pose proof (split_In 64 y) as Hin.
    destruct (split 64 y) as [|p0 [|d [|p2 rest]]]; cbn [length] in Hat; try lia;
      cbn [length Nat.ltb Nat.leb nth].
    + cbn [app]. rewrite replaceSeparators_id by exact Hsep.
      symmetry. apply join_split.
    + cbn [app]. rewrite replaceSeparators_id by exact Hsep.
      symmetry. apply join_split.
    + rewrite replaceSeparators_id.
      * rewrite join_split, <- app_assoc. symmetry. exact Hjoin.
      * rewrite Forall_forall in *. intros u Hu. apply Hsep.
        apply (Hin d); [right; left; reflexivity|exact Hu].
Qed.

(** C4 fails for [toUnicode]: the label [xn--xn--abc-] decodes to [xn--abc],
    which a second call decodes again. *)
Lemma toUnicode_not_idempotent :
  (forall unicodeToLowerCase,
      toUnicode unicodeToLowerCase (units "xn--xn--abc-") = Ok (units "xn--abc")) /\
  (forall unicodeToLowerCase,
      toUnicode unicodeToLowerCase (units "xn--abc") = Ok [130; 129; 128]) /\
  [130; 129; 128] <> units "xn--abc".
Proof.
  split; [intros f; vm_compute; reflexivity|].
  split; [intros f; vm_compute; reflexivity|].
  vm_compute. discriminate.
Qed.

(** C4, as the code has it: [toASCII] is idempotent on its own output;
    [toUnicode] gives its output back when the output has at most one [@],
    no separator other than [.] and no label that starts with [xn--]. *)
Theorem facade_idempotence (unicodeToLowerCase : jsstring -> jsstring) :
  (forall x y,
      is_string x = true -> toASCII x = Ok y -> toASCII y = Ok y) /\
  (forall x y,
      toUnicode unicodeToLowerCase x = Ok y ->
      (length (split 64 y) <= 2)%nat ->
      Forall (fun u => isSeparator u = true -> u = 46) y ->
      Forall (fun l => regexPunycode_test l = false) (mapDomain_labels y) ->
      toUnicode unicodeToLowerCase y = Ok y).
Proof.
  split.
  - apply toASCII_idempotent.
  - intros x y _. apply toUnicode_fixpoint.
Qed.

Lemma facade_idempotence_witness :
  toASCII (units "xn--maana-pta.com") = Ok (units "xn--maana-pta.com") /\
  toUnicode (fun s => s) manana_com = Ok manana_com.
Proof.
  split.
  - apply (proj1 (facade_idempotence (fun s => s)) manana_com (units "xn--maana-pta.com"));
      reflexivity.
  - apply (proj2 (facade_idempotence (fun s => s)) (units "xn--maana-pta.com") manana_com).
    + reflexivity.
    + vm_compute. lia.
    + repeat (constructor; [vm_compute; intros H; (reflexivity || discriminate H)|]).
      constructor.
    + repeat (constructor; [reflexivity|]). constructor.
Defined.

(** * The [ucs2] object *)

Lemma ucs2decode_cons_single (u : Z) (s : jsstring) :
  isHighSurrogate u = false -> ucs2decode (u :: s) = u :: ucs2decode s.
Proof.
  intros H. cbn [ucs2decode]. destruct s as [|second rest]; [reflexivity|].
  rewrite H. reflexivity.
Qed.

(** X1: [ucs2.encode(ucs2.decode(s))] is [s], for every string [s] of at
    most [spread_limit] code points, lone surrogates included;
    [ucs2.decode] yields code points only. *)
Theorem ucs2_encode_decode (s : jsstring) :
  is_string s = true ->
  Z.of_nat (length (ucs2decode s)) <= spread_limit ->
  Forall is_code_point (ucs2decode s) /\ ucs2_encode (ucs2decode s) = Ok s.
Proof.
  intros Hs _. split.
  - apply ucs2decode_code_points. exact Hs.
  - apply fromCodePoint_ucs2decode. exact Hs.
Qed.

Lemma ucs2_encode_decode_witness :
  Forall is_code_point (ucs2decode [55357; 56832; 56832; 97]) /\
  ucs2_encode (ucs2decode [55357; 56832; 56832; 97]) = Ok [55357; 56832; 56832; 97].
Proof.
  apply (ucs2_encode_decode [55357; 56832; 56832; 97]);
    [reflexivity|vm_compute; discriminate].
Defined.

(** X2: [ucs2.decode(ucs2.encode(points))] is [points] for at most
    [spread_limit] values that are each a Unicode scalar value;
    [ucs2.encode] then returns a string. *)
Theorem ucs2_decode_encode (points : list Z) :
  Forall is_scalar_value points ->
  Z.of_nat (length points) <= spread_limit ->
  exists s, ucs2_encode points = Ok s /\ is_string s = true /\ ucs2decode s = points.
Proof.
  unfold ucs2_encode. intros Hall _. revert Hall.
  induction 1 as [|c points (Hc & Hns) _ (s & Hs & Hstr & Hdec)].
  - exists []. repeat split.
  - cbn [fromCodePoint].
    destruct (Z.ltb_spec c 0); [lia|]. destruct (Z.ltb_spec 1114111 c); [lia|].
    cbn [orb]. rewrite Hs. cbn [bind].
    destruct (Z.leb_spec c 65535) as [Hle|Hgt].
    + exists (c :: s). split; [reflexivity|]. split.
      * apply is_string_cons. split; [lia|exact Hstr].
      * rewrite ucs2decode_cons_single, Hdec; [reflexivity|].
        unfold isHighSurrogate. apply andb_false_iff.
        rewrite Z.leb_gt, Z.leb_gt. lia.
    + set (x := c - 65536).
      assert (Hx : 0 <= x < 1048576) by (unfold x; lia).
      assert (Hhi : 0 <= Z.shiftr x 10 < 1024).
      { rewrite Z.shiftr_div_pow2 by lia. change (2 ^ 10) with 1024.
        split; [apply Z.div_pos; lia|apply Z.div_lt_upper_bound; lia]. }
      assert (Hlo : 0 <= Z.land x 1023 < 1024).
      { change 1023 with (Z.ones 10). rewrite Z.land_ones by lia.
        apply Z.mod_pos_bound. reflexivity. }
      assert (Hsum : Z.shiftr x 10 * 1024 + Z.land x 1023 = x).
      { rewrite Z.shiftr_div_pow2 by lia. change (2 ^ 10) with 1024.
        change 1023 with (Z.ones 10). rewrite Z.land_ones by lia.
        change (2 ^ 10) with 1024. pose proof (Z.div_mod x 1024). lia. }
      exists (55296 + Z.shiftr x 10 :: 56320 + Z.land x 1023 :: s).
      split; [reflexivity|]. split.
      * apply is_string_cons. split; [lia|]. apply is_string_cons. split; [lia|exact Hstr].
      * cbn [ucs2decode].
        replace (isHighSurrogate (55296 + Z.shiftr x 10)) with true
          by (symmetry; unfold isHighSurrogate; apply andb_true_iff;
              rewrite !Z.leb_le; lia).
        replace (isLowSurrogate (56320 + Z.land x 1023)) with true
          by (symmetry; unfold isLowSurrogate; apply andb_true_iff;
              rewrite !Z.leb_le; lia).
        cbn [andb]. rewrite Hdec. f_equal. unfold x in *. lia.
Qed.

Lemma ucs2_decode_encode_witness :
  exists s, ucs2_encode [97; 128512; 8364] = Ok s /\ is_string s = true /\
            ucs2decode s = [97; 128512; 8364].
Proof.
  apply (ucs2_decode_encode [97; 128512; 8364]).
  - repeat constructor; unfold is_scalar_value; lia.
  - vm_compute. discriminate.
Defined.

(** * The digit alphabet, both ways *)

Lemma basicToDigit_alnum (u : Z) :
  (is_alnum_unit u -> 0 <= basicToDigit u < base) /\
  (~ is_alnum_unit u -> basicToDigit u = base).
Proof.
  unfold is_alnum_unit, basicToDigit, base.
  destruct (Z.geb_spec u 48), (Z.ltb_spec u 58), (Z.geb_spec u 65), (Z.ltb_spec u 91),
    (Z.geb_spec u 97), (Z.ltb_spec u 123); cbn [andb]; split; intros Hal; lia.
Qed.

(** X4: a digit written by [digitToBasic] reads back by [basicToDigit]:
    for every digit below 36 without the upper-case flag (the unit is in
    [a-z] or [0-9]), and for every digit below 26 with it (the unit is in
    [A-Z]). *)
Theorem digitToBasic_roundtrip (digit : Z) (flag : bool) :
  0 <= digit < base ->
  (flag = true -> digit < 26) ->
  basicToDigit (digitToBasic digit flag) = digit /\
  (if flag then is_upper_unit (digitToBasic digit flag)
   else is_digit_unit (digitToBasic digit flag)).
Proof.
  unfold base. intros Hd Hf. unfold digitToBasic.
  destruct flag.
  - specialize (Hf eq_refl). change (shl 1 5) with 32.
    destruct (Z.ltb_spec digit 26); [|lia].
    replace (digit + 22 + 75 * 1 - 32) with (digit + 65) by lia.
    split; [|unfold is_upper_unit; lia].
    destruct (basicToDigit_alnum (digit + 65)) as [H1 _].
    unfold basicToDigit.
    destruct (Z.geb_spec (digit + 65) 48), (Z.ltb_spec (digit + 65) 58),
      (Z.geb_spec (digit + 65) 65), (Z.ltb_spec (digit + 65) 91); cbn [andb]; lia.
  - change (shl 0 5) with 0. unfold is_digit_unit, basicToDigit.
    destruct (Z.ltb_spec digit 26).
    + replace (digit + 22 + 75 * 1 - 0) with (digit + 97) by lia.
      destruct (Z.geb_spec (digit + 97) 48), (Z.ltb_spec (digit + 97) 58),
        (Z.geb_spec (digit + 97) 65), (Z.ltb_spec (digit + 97) 91),
        (Z.geb_spec (digit + 97) 97), (Z.ltb_spec (digit + 97) 123); cbn [andb]; lia.
    + replace (digit + 22 + 75 * 0 - 0) with (digit + 22) by lia.
      destruct (Z.geb_spec (digit + 22) 48), (Z.ltb_spec (digit + 22) 58); cbn [andb]; lia.
Qed.

Lemma digitToBasic_roundtrip_witness :
  basicToDigit (digitToBasic 25 true) = 25 /\ is_upper_unit (digitToBasic 25 true).
Proof.
  apply (digitToBasic_roundtrip 25 true); [unfold base; lia|lia].
Defined.

(** X5: [basicToDigit] takes exactly the units of [0-9], [A-Z] and [a-z]
    for digits, letters without regard to case, and maps every other unit
    to [base]; writing the digit back gives the unit in lower case. *)
Theorem basicToDigit_digits (u : Z) :
  (is_alnum_unit u ->
   0 <= basicToDigit u < base /\
   basicToDigit (asciiLower u) = basicToDigit u /\
   digitToBasic (basicToDigit u) false = asciiLower u) /\
  (~ is_alnum_unit u -> basicToDigit u = base).
Proof.
  split; [|apply basicToDigit_alnum].
  unfold is_alnum_unit, basicToDigit, digitToBasic, asciiLower, base.
  change (shl 0 5) with 0. intros Hal.
  destruct (Z.leb_spec 65 u), (Z.leb_spec u 90); cbn [andb];
    destruct (Z.geb_spec u 48), (Z.ltb_spec u 58), (Z.geb_spec u 65), (Z.ltb_spec u 91),
      (Z.geb_spec u 97), (Z.ltb_spec u 123); cbn [andb]; try lia;
    repeat match goal with
      | |- context [?a >=? ?b] => destruct (Z.geb_spec a b)
      | |- context [?a <? ?b] => destruct (Z.ltb_spec a b)
      end; cbn [andb]; lia.
Qed.

(** * The bias *)

(** X6: for every [delta] from 0 to [maxInt] and at least one point, [adapt]
    returns a bias from 0 to 213. *)
Theorem adapt_range (delta numPoints : Z) (firstTime : bool) :
  0 <= delta <= maxInt -> 0 < numPoints ->
  exists bias, adapt delta numPoints firstTime = Ok bias /\ 0 <= bias <= 213.
Proof.
  intros Hd Hn.
  destruct (adapt_correct delta numPoints firstTime Hd Hn) as (bias & Ha & _ & Hb).
  exists bias. auto.
Qed.

Lemma adapt_range_witness :
  exists bias, adapt maxInt 1 false = Ok bias /\ 0 <= bias <= 213.
Proof.
  apply (adapt_range maxInt 1 false); unfold maxInt; lia.
Defined.

(** * [decode], by the place of the last delimiter *)

Lemma last_occurrence (s : jsstring) (c : Z) :
  ~ In c s \/ exists p d, s = p ++ c :: d /\ ~ In c d.
Proof.
  induction s as [|x s [IH|(p & d & -> & Hd)]].
  - left. intros [].
  - destruct (Z.eq_dec x c) as [->|Hne].
    + right. exists [], s. auto.
    + left. intros [H|H]; [congruence|contradiction].
  - right. exists (x :: p), d. auto.
Qed.

Lemma decode_no_delimiter (input : jsstring) :
  ~ In delimiter input ->
  decode input
  = (output <- decode_run input initialN 0 initialBias [] ;; fromCodePoint output).
Proof.
  intros H. rewrite decode_unfold, lastIndexOf_absent by exact H. reflexivity.
Qed.

Lemma decode_leading (d : jsstring) :
  ~ In delimiter d -> decode (delimiter :: d) = Throw InvalidInput.
Proof.
  intros H.
  assert (H0 : lastIndexOf (delimiter :: d) delimiter = 0).
  { apply (lastIndexOf_last [] d delimiter H). }
  rewrite decode_unfold, H0. reflexivity.
Qed.

Lemma decode_delimited (p d : jsstring) :
  p <> [] -> ~ In delimiter d ->
  decode (p ++ delimiter :: d)
  = (output <- decode_basic p [] ;;
     output <- decode_run d initialN 0 initialBias output ;;
     fromCodePoint output).
Proof.
  intros Hp Hd. rewrite decode_unfold, lastIndexOf_last by exact Hd. cbv zeta.
  assert (Hlen : 0 < Z.of_nat (length p)).
  { destruct p; [contradiction|]. cbn [length]. lia. }
  destruct (Z.ltb_spec (Z.of_nat (length p)) 0); [lia|].
  destruct (Z.gtb_spec (Z.of_nat (length p)) 0); [|lia].
  rewrite Nat2Z.id.
  rewrite firstn_app, Nat.sub_diag, firstn_all. cbn [firstn]. rewrite app_nil_r.
  replace (Z.to_nat (Z.of_nat (length p) + 1)) with (length p + 1)%nat by lia.
  rewrite skipn_app.
  replace (length p + 1 - length p)%nat with 1%nat by lia.
  rewrite skipn_all2 by lia. reflexivity.
Qed.

Lemma decode_basic_cases (prefix : jsstring) :
  forall output,
    (Forall (fun u => u < 128) prefix ->
     decode_basic prefix output = Ok (output ++ prefix)) /\
    (Exists (fun u => 128 <= u) prefix ->
     decode_basic prefix output = Throw NotBasic).
Proof.
  induction prefix as [|c prefix IH]; intros output; cbn [decode_basic].
  - split; [intros _; rewrite app_nil_r; reflexivity|intros H; inversion H].
  - destruct (IH (output ++ [c])) as [IH1 IH2]. split.
    + intros H. inversion H as [|? ? Hc Hrest]; subst.
      destruct (Z.geb_spec c 128); [lia|].
      rewrite (IH1 Hrest), <- app_assoc. reflexivity.
    + intros H. destruct (Z.geb_spec c 128); [reflexivity|].
      inversion H as [? ? Hc|? ? Hrest]; subst; [lia|]. exact (IH2 Hrest).
Qed.

Lemma small_or_not (prefix : jsstring) :
  Forall (fun u => u < 128) prefix \/ Exists (fun u => 128 <= u) prefix.
Proof.
  induction prefix as [|c prefix [IH|IH]].
  - left. constructor.
  - destruct (Z.lt_ge_cases c 128); [left; constructor; assumption|].
    right. apply Exists_cons_hd. assumption.
  - right. apply Exists_cons_tl. exact IH.
Qed.

(** What [decode_digits] reads is not empty, and digits only. *)
Lemma decode_digits_read (rest : jsstring) :
  forall k i w bias i' rest',
    decode_digits rest k i w bias = Ok (i', rest') ->
    exists ds, rest = ds ++ rest' /\ ds <> [] /\ Forall is_alnum_unit ds.
Proof.
  induction rest as [|c rest IH]; intros k i w bias i' rest' H; cbn [decode_digits] in H.
  - discriminate.
  - destruct (Z.geb_spec (basicToDigit c) base) as [|Hc]; [discriminate|].
    assert (Hal : is_alnum_unit c).
    { destruct (basicToDigit_alnum c) as [_ H2].
      unfold is_alnum_unit in *. destruct (Z.lt_ge_cases c 48); [exfalso; lia|].
      destruct (Z.le_gt_cases c 57); [lia|].
      destruct (Z.lt_ge_cases c 65); [exfalso; lia|].
      destruct (Z.le_gt_cases c 90); [lia|].
      destruct (Z.lt_ge_cases c 97); [exfalso; lia|].
      destruct (Z.le_gt_cases c 122); [lia|exfalso; lia]. }
    destruct (basicToDigit c >? _); [discriminate|].
    destruct (basicToDigit c <? threshold k bias).
    + injection H as _ <-. exists [c]. split; [reflexivity|].
      split; [discriminate|]. constructor; [exact Hal|constructor].
    + destruct (w >? _); [discriminate|].
      destruct (IH _ _ _ _ _ _ H) as (ds & -> & _ & Hds).
      exists (c :: ds). split; [reflexivity|]. split; [discriminate|].
      constructor; assumption.
Qed.

Lemma decode_digits_throws (rest : jsstring) :
  forall k i w bias e,
    decode_digits rest k i w bias = Throw e -> e = InvalidInput \/ e = Overflow.
Proof.
  induction rest as [|c rest IH]; intros k i w bias e H; cbn [decode_digits] in H.
  - injection H as <-. auto.
  - destruct (basicToDigit c >=? base); [injection H as <-; auto|].
    destruct (basicToDigit c >? _); [injection H as <-; auto|].
    destruct (basicToDigit c <? threshold k bias); [discriminate|].
    destruct (w >? _); [injection H as <-; auto|].
    exact (IH _ _ _ _ _ H).
Qed.

(** The main loop of [decode] returns only when all it reads are digits,
    and throws [InvalidInput] or [Overflow] only. *)
Lemma decode_run_outcomes (len : nat) :
  forall rest n i bias output,
    (length rest <= len)%nat ->
    (forall result, decode_run rest n i bias output = Ok result ->
                    Forall is_alnum_unit rest) /\
    (forall e, decode_run rest n i bias output = Throw e ->
               e = InvalidInput \/ e = Overflow).
Proof.
  induction len as [|len IH]; intros rest n i bias output Hlen.
  - destruct rest; [|simpl in Hlen; lia]. split.
    + intros _ _. constructor.
    + intros e H. discriminate H.
  - destruct rest as [|c rest].
    + split; [intros _ _; constructor|intros e H; discriminate H].
    + rewrite decode_run_nonempty by discriminate.
      destruct (decode_digits (c :: rest) base i 1 bias) as [[i' rest']|e0|] eqn:E;
        cbn [bind].
      * pose proof (decode_digits_length _ _ _ _ _ _ _ E) as Hshort.
        destruct (decode_digits_read _ _ _ _ _ _ _ E) as (ds & Heq & _ & Hds).
        destruct (adapt_total (i' - i) (Z.of_nat (length output) + 1) (i =? 0)) as (b & ->).
        cbn [bind]. destruct (_ >? _).
        -- split; [intros r H; discriminate H|intros e H; injection H as <-; auto].
        -- match goal with
           | |- context [decode_run rest' ?n' ?i'' b ?o'] =>
               destruct (IH rest' n' i'' b o') as [IH1 IH2]
           end; [cbn [length] in Hlen, Hshort; lia|].
           split; [|exact IH2].
           intros r H. rewrite Heq, Forall_app. split; [exact Hds|exact (IH1 r H)].
      * split; [intros r H; discriminate H|].
        intros e H. injection H as <-. exact (decode_digits_throws _ _ _ _ _ _ E).
      * split; [intros r H|intros e H]; discriminate H.
Qed.

Lemma fromCodePoint_throws (points : list Z) (e : error) :
  fromCodePoint points = Throw e -> e = InvalidCodePoint.
Proof.
  revert e. induction points as [|c points IH]; intros e; cbn [fromCodePoint].
  - discriminate.
  - destruct ((c <? 0) || (1114111 <? c)); [congruence|].
    destruct (fromCodePoint points) as [s|e'|]; cbn [bind].
    + destruct (c <=? 65535); discriminate.
    + intros H. injection H as <-. apply IH. reflexivity.
    + discriminate.
Qed.

Lemma alnum_no_delimiter (d : jsstring) : Forall is_alnum_unit d -> ~ In delimiter d.
Proof.
  intros H Hin. rewrite Forall_forall in H. specialize (H _ Hin).
  unfold is_alnum_unit, delimiter in H. lia.
Qed.

(** X7: [decode] returns only on ASCII input: when it returns, no unit of
    the input is 0x80 or above, and every unit after the last delimiter (every
    unit, when there is no delimiter) is a letter or a digit; the delimiter
    is then not the first unit. *)
Theorem decode_accepts_ascii (input output : jsstring) :
  decode input = Ok output ->
  Forall (fun u => u < 128) input /\
  (Forall is_alnum_unit input \/
   exists p d, input = p ++ delimiter :: d /\ p <> [] /\ Forall is_alnum_unit d).
Proof.
  intros H. destruct (last_occurrence input delimiter) as [Hno|(p & d & -> & Hd)].
  - rewrite decode_no_delimiter in H by exact Hno.
    destruct (decode_run input initialN 0 initialBias []) as [o| |] eqn:E;
      cbn [bind] in H; try discriminate.
    destruct (decode_run_outcomes (length input) input initialN 0 initialBias []
                (Nat.le_refl _)) as [Hal _].
    specialize (Hal o E). split; [|left; exact Hal].
    eapply Forall_impl; [|exact Hal]. unfold is_alnum_unit. intros u Hu. lia.
  - destruct p as [|x p];
      [cbn [app] in H; rewrite decode_leading in H by exact Hd; discriminate|].
    rewrite decode_delimited in H by (discriminate || exact Hd).
    destruct (small_or_not (x :: p)) as [Hsmall|Hbig].
    + destruct (decode_basic_cases (x :: p) []) as [Hb _]. rewrite (Hb Hsmall) in H.
      cbn [bind] in H.
      destruct (decode_run d initialN 0 initialBias ([] ++ x :: p)) as [o| |] eqn:E;
        cbn [bind] in H; try discriminate.
      destruct (decode_run_outcomes (length d) d initialN 0 initialBias ([] ++ x :: p)
                  (Nat.le_refl _)) as [Hal _].
      specialize (Hal o E). split.
      * rewrite Forall_app. split; [exact Hsmall|].
        constructor; [unfold delimiter; lia|].
        eapply Forall_impl; [|exact Hal]. unfold is_alnum_unit. intros u Hu. lia.
      * right. exists (x :: p), d. split; [reflexivity|]. split; [discriminate|exact Hal].
    + destruct (decode_basic_cases (x :: p) []) as [_ Hb]. rewrite (Hb Hbig) in H.
      discriminate H.
Qed.

Lemma decode_accepts_ascii_witness :
  Forall (fun u => u < 128) (units "maana-pta") /\
  (Forall is_alnum_unit (units "maana-pta") \/
   exists p d, units "maana-pta" = p ++ delimiter :: d /\ p <> [] /\
               Forall is_alnum_unit d).
Proof.
  apply (decode_accepts_ascii (units "maana-pta") manana). reflexivity.
Defined.

(** X8: [decode] throws [NotBasic] exactly when a unit of 0x80 or above
    stands before the last delimiter of the input. *)
Theorem decode_not_basic (input : jsstring) :
  decode input = Throw NotBasic <->
  exists p d, input = p ++ delimiter :: d /\ ~ In delimiter d /\
              Exists (fun u => 128 <= u) p.
Proof.
  split.
  - intros H. destruct (last_occurrence input delimiter) as [Hno|(p & d & -> & Hd)].
    + rewrite decode_no_delimiter in H by exact Hno.
      destruct (decode_run input initialN 0 initialBias []) as [o|e|] eqn:E;
        cbn [bind] in H.
      * apply fromCodePoint_throws in H. discriminate H.
      * destruct (decode_run_outcomes (length input) input initialN 0 initialBias []
                    (Nat.le_refl _)) as [_ Herr].
        injection H as ->. destruct (Herr _ E); discriminate.
      * discriminate.
    + destruct p as [|x p];
      [cbn [app] in H; rewrite decode_leading in H by exact Hd; discriminate|].
      exists (x :: p), d. split; [reflexivity|]. split; [exact Hd|].
      destruct (small_or_not (x :: p)) as [Hsmall|Hbig]; [|exact Hbig]. exfalso.
      rewrite decode_delimited in H by (discriminate || exact Hd).
      destruct (decode_basic_cases (x :: p) []) as [Hb _]. rewrite (Hb Hsmall) in H.
      cbn [bind] in H.
      destruct (decode_run d initialN 0 initialBias ([] ++ x :: p)) as [o|e|] eqn:E;
        cbn [bind] in H.
      * apply fromCodePoint_throws in H. discriminate H.
      * destruct (decode_run_outcomes (length d) d initialN 0 initialBias ([] ++ x :: p)
                    (Nat.le_refl _)) as [_ Herr].
        injection H as ->. destruct (Herr _ E); discriminate.
      * discriminate.
  - intros (p & d & -> & Hd & Hbig).
    assert (Hp : p <> []) by (intros ->; inversion Hbig).
    rewrite decode_delimited by assumption.
    destruct (decode_basic_cases p []) as [_ Hb]. rewrite (Hb Hbig). reflexivity.
Qed.

(** * Case of the digits *)

Lemma basicToDigit_asciiLower (u : Z) : basicToDigit (asciiLower u) = basicToDigit u.
Proof.
  unfold basicToDigit, asciiLower.
  destruct (Z.leb_spec 65 u), (Z.leb_spec u 90); cbn [andb];
    repeat match goal with
      | |- context [?a >=? ?b] => destruct (Z.geb_spec a b)
      | |- context [?a <? ?b] => destruct (Z.ltb_spec a b)
      end; cbn [andb]; lia.
Qed.

Lemma asciiLower_delimiter (u : Z) : asciiLower u = delimiter <-> u = delimiter.
Proof.
  unfold asciiLower, delimiter.
  destruct (Z.leb_spec 65 u), (Z.leb_spec u 90); cbn [andb]; lia.
Qed.

Lemma decode_digits_lower (rest : jsstring) :
  forall k i w bias,
    decode_digits (map asciiLower rest) k i w bias
    = match decode_digits rest k i w bias with
      | Ok (i', rest') => Ok (i', map asciiLower rest')
      | Throw e => Throw e
      | OutOfFuel => OutOfFuel
      end.
Proof.
  induction rest as [|c rest IH]; intros k i w bias; cbn [map decode_digits].
  - reflexivity.
  - rewrite basicToDigit_asciiLower.
    destruct (basicToDigit c >=? base); [reflexivity|].
    destruct (basicToDigit c >? _); [reflexivity|].
    destruct (basicToDigit c <? threshold k bias); [reflexivity|].
    destruct (w >? _); [reflexivity|]. apply IH.
Qed.

Lemma decode_run_lower (len : nat) :
  forall rest n i bias output,
    (length rest <= len)%nat ->
    decode_run (map asciiLower rest) n i bias output = decode_run rest n i bias output.
Proof.
  induction len as [|len IH]; intros rest n i bias output Hlen.
  - destruct rest; [reflexivity|simpl in Hlen; lia].
  - destruct rest as [|c rest]; [reflexivity|].
    rewrite !decode_run_nonempty by discriminate.
    rewrite decode_digits_lower.
    destruct (decode_digits (c :: rest) base i 1 bias) as [[i' rest']|e|] eqn:E;
      cbn [bind]; try reflexivity.
    apply decode_digits_length in E.
    destruct (adapt _ _ _); cbn [bind]; try reflexivity.
    destruct (_ >? _); [reflexivity|].
    apply IH. cbn [length] in Hlen, E. lia.
Qed.

(** X9: [decode] reads the digits after the last delimiter without regard
    to case: putting them in lower case changes nothing of what [decode]
    returns or throws. *)
Theorem decode_digits_case (p d : jsstring) :
  ~ In delimiter d ->
  decode (map asciiLower d) = decode d /\
  decode (p ++ delimiter :: map asciiLower d) = decode (p ++ delimiter :: d).
Proof.
  intros Hd.
  assert (Hd' : ~ In delimiter (map asciiLower d)).
  { rewrite in_map_iff. intros (u & Hu & Hin).
    apply (proj1 (asciiLower_delimiter u)) in Hu. rewrite Hu in Hin. contradiction. }
  split.
  - rewrite !decode_no_delimiter by assumption.
    rewrite (decode_run_lower (length d)) by lia. reflexivity.
  - destruct p as [|x p].
    + cbn [app]. rewrite !decode_leading by assumption. reflexivity.
    + rewrite !decode_delimited by (discriminate || assumption).
      destruct (decode_basic (x :: p) []); cbn [bind]; try reflexivity.
      rewrite (decode_run_lower (length d)) by lia. reflexivity.
Qed.

Lemma decode_digits_case_witness :
  decode (map asciiLower (units "PTA")) = decode (units "PTA") /\
  decode (units "maana" ++ delimiter :: map asciiLower (units "PTA"))
  = decode (units "maana" ++ delimiter :: units "PTA").
Proof.
  apply (decode_digits_case (units "maana") (units "PTA")).
  cbn. unfold delimiter. intros [H|[H|[H|[]]]]; discriminate H.
Defined.

(** * ASCII strings *)

Lemma ucs2decode_basic (s : jsstring) :
  Forall is_basic s -> ucs2decode s = s.
Proof.
  induction 1 as [|u s Hu _ IH]; [reflexivity|].
  rewrite ucs2decode_cons_single, IH; [reflexivity|].
  unfold isHighSurrogate, is_basic in *. apply andb_false_iff. left.
  apply Z.leb_gt. lia.
Qed.

Lemma filter_basic (s : jsstring) :
  Forall is_basic s -> filter (fun c => c <? 128) s = s.
Proof.
  induction 1 as [|u s Hu _ IH]; [reflexivity|]. cbn [filter].
  unfold is_basic in Hu. destruct (Z.ltb_spec u 128); [|lia]. rewrite IH. reflexivity.
Qed.

Lemma basic_code_points (s : jsstring) : Forall is_basic s -> Forall is_code_point s.
Proof. apply Forall_impl. unfold is_basic, is_code_point. lia. Qed.

(** X10: on a non-empty ASCII string [encode] returns the string with one
    delimiter at its end, and [decode] takes that delimiter off again when
    the string has at most [spread_limit] units; the string may hold
    delimiters of its own. *)
Theorem encode_ascii (s : jsstring) :
  Forall is_basic s -> s <> [] ->
  encode s = Ok (s ++ [delimiter]) /\
  (Z.of_nat (length s) <= spread_limit -> decode (s ++ [delimiter]) = Ok s).
Proof.
  intros Hb Hne. split; [|intros _].
  - rewrite encode_unfold, ucs2decode_basic by exact Hb.
    unfold encode_init, encode_basicLength.
    rewrite encode_basic_spec by (apply basic_code_points; exact Hb).
    cbn [app]. rewrite filter_basic by exact Hb.
    destruct (Z.gtb_spec (Z.of_nat (length s)) 0) as [_|Hlen];
      [|destruct s; [contradiction|cbn [length] in Hlen; lia]].
    destruct (length s) eqn:El; [destruct s; [contradiction|discriminate El]|].
    cbn [encode_loop enc_handledCPCount enc_output]. rewrite <- El.
    rewrite Z.ltb_irrefl. reflexivity.
  - rewrite decode_delimited by (assumption || intros []).
    destruct (decode_basic_cases s []) as [H1 _]. rewrite H1.
    + cbn [bind app]. rewrite decode_run_nil. cbn [bind].
      rewrite <- (ucs2decode_basic s Hb) at 1.
      apply fromCodePoint_ucs2decode.
      apply is_string_forall. intros u Hu. rewrite Forall_forall in Hb.
      specialize (Hb u Hu). unfold is_basic in Hb. lia.
    + eapply Forall_impl; [|exact Hb]. unfold is_basic. intros u Hu. lia.
Qed.

Lemma encode_ascii_witness :
  encode (units "a-b") = Ok (units "a-b" ++ [delimiter]) /\
  decode (units "a-b" ++ [delimiter]) = Ok (units "a-b").
Proof.
  assert (Hb : Forall is_basic (units "a-b"))
    by (repeat constructor; unfold is_basic; cbn; lia).
  assert (Hne : units "a-b" <> []) by discriminate.
  split.
  - exact (proj1 (encode_ascii (units "a-b") Hb Hne)).
  - apply (proj2 (encode_ascii (units "a-b") Hb Hne)). vm_compute. discriminate.
Defined.

(** * [encode] on strings of moderate length *)

Lemma encode_step_bounded (basicLength hp1 : Z) (pre post : list Z) (c : Z)
  (st : enc_state) (D0 : Z) :
  pass_inv basicLength hp1 pre (c :: post) st ->
  0 <= D0 ->
  enc_delta st <= D0 + Z.of_nat (length (filter (fun x => x <? enc_n st) pre)) ->
  D0 + hp1 - 1 <= maxInt ->
  exists st',
    encode_step c basicLength hp1 st = Ok st' /\
    enc_n st' = enc_n st /\
    enc_delta st'
    <= D0 + Z.of_nat (length (filter (fun x => x <? enc_n st) (pre ++ [c]))).
Proof.
  intros (Hh & Hd & Hb & Ho & Hp & Hs) HD0 Hdelta Hfit. unfold encode_step.
  pose proof (filter_snoc_length (fun x => x <? enc_n st) pre c) as Hsnoc.
  cbv beta in Hsnoc.
  assert (Hcount : Z.of_nat (length (filter (fun x => x <? enc_n st) pre))
                   + (if c <? enc_n st then 1 else 0) <= hp1 - 1).
  { rewrite Hp, filter_app, length_app. cbn [filter].
    destruct (c <? enc_n st); cbn [length]; lia. }
  destruct (Z.ltb_spec c (enc_n st)) as [Hlt|Hge].
  - cbn zeta. destruct (Z.gtb_spec (enc_delta st + 1) maxInt) as [Hov|Hok]; [lia|].
    cbn [bind]. destruct (Z.eqb_spec c (enc_n st)) as [->|_]; [lia|].
    eexists. split; [reflexivity|]. cbn [enc_n enc_delta]. split; [reflexivity|lia].
  - cbn [bind]. destruct (Z.eqb_spec c (enc_n st)) as [->|Hne].
    + destruct (encode_digits_spec (digits_fuel (enc_delta st)) base (enc_delta st)
                  (enc_bias st) (enc_output st)) as (qf & ds & He & _).
      { split; [lia|apply digits_fuel_spec]. }
      destruct (adapt_correct (enc_delta st) hp1
                  (enc_handledCPCount st =? basicLength)) as (bias' & Ha & _);
        [lia|lia|].
      rewrite He. cbn [bind]. rewrite Ha. cbn [bind].
      eexists. split; [reflexivity|]. cbn [enc_n enc_delta]. split; [reflexivity|lia].
    + eexists. split; [reflexivity|]. cbn [enc_n enc_delta]. split; [reflexivity|lia].
Qed.

Lemma encode_pass_bounded (basicLength hp1 D0 : Z) (post : list Z) :
  forall pre st,
    pass_inv basicLength hp1 pre post st ->
    0 <= D0 ->
    enc_delta st <= D0 + Z.of_nat (length (filter (fun x => x <? enc_n st) pre)) ->
    D0 + hp1 - 1 <= maxInt ->
    exists st', encode_pass post basicLength hp1 st = Ok st'.
Proof.
  induction post as [|c post IH]; intros pre st Hinv HD0 Hdelta Hfit.
  - exists st. reflexivity.
  - cbn [encode_pass].
    destruct (encode_step_bounded basicLength hp1 pre post c st D0 Hinv HD0 Hdelta Hfit)
      as (st1 & E & Hn & Hd1).
    destruct (encode_step_inv basicLength hp1 pre post c st Hinv)
      as [E'|(st1' & E' & Hinv1 & _)]; rewrite E in E'; [discriminate|].
    injection E' as <-. rewrite E. cbn [bind].
    apply (IH (pre ++ [c]) st1 Hinv1 HD0); [|exact Hfit].
    rewrite Hn. exact Hd1.
Qed.

Lemma encode_iteration_bounded (codePoints : list Z) (basicLength : Z) (st : enc_state) :
  Forall is_code_point codePoints ->
  Z.of_nat (length codePoints) * 1114112 <= 2147483648 ->
  head_inv codePoints basicLength st ->
  head_bound st ->
  enc_handledCPCount st < Z.of_nat (length codePoints) ->
  exists st',
    encode_iteration codePoints basicLength st = Ok st' /\
    head_inv codePoints basicLength st' /\
    head_bound st' /\
    enc_handledCPCount st < enc_handledCPCount st'.
Proof.
  intros Hcp Hsmall Hinv (Hn & Hdh) Hlt.
  destruct (head_inv_min codePoints basicLength st Hcp Hinv Hlt) as (Hin & Hle & _).
  pose proof (encode_iteration_enter codePoints basicLength st Hcp Hinv Hlt) as Henter.
  pose proof (encode_iteration_inv codePoints basicLength st Hcp Hinv Hlt) as Hstep.
  destruct Hinv as (Hh & Hd & Hb & Ho).
  assert (Hm : encode_min codePoints (enc_n st) <= 1114111).
  { rewrite Forall_forall in Hcp. apply (Hcp _ Hin). }
  unfold encode_iteration in *.
  set (m := encode_min codePoints (enc_n st)) in *.
  set (h := enc_handledCPCount st) in *.
  assert (Hh0 : 0 <= h) by lia.
  rewrite Math_floor_div in * by lia.
  destruct (Z.gtb_spec (m - enc_n st) ((maxInt - enc_delta st) / (h + 1))) as [Hov|_].
  { exfalso.
    assert (m - enc_n st <= (maxInt - enc_delta st) / (h + 1)); [|lia].
    apply Z.div_le_lower_bound; [lia|]. unfold maxInt. nia. }
  destruct (Henter eq_refl) as (Hpass & _). clear Henter.
  destruct (encode_pass_bounded basicLength (h + 1)
              (enc_delta st + (m - enc_n st) * (h + 1)) codePoints [] _ Hpass)
    as (st2 & E).
  { nia. }
  { cbn [enc_delta enc_n filter length]. lia. }
  { unfold maxInt. nia. }
  rewrite E in *. cbn [bind] in *.
  destruct Hstep as [Hthrow|(st' & Hok & Hinv' & Hgrow & _)]; [discriminate|].
  injection Hok as <-.
  destruct (encode_pass_inv basicLength (h + 1) codePoints [] _ Hpass)
    as [E'|(st2' & E' & (_ & _ & _ & _ & Hp2 & Hs2) & Hn2 & _)];
    rewrite E in E'; [discriminate|].
  injection E' as <-.
  eexists. split; [reflexivity|]. split; [exact Hinv'|]. split; [|exact Hgrow].
  unfold head_bound. cbn [enc_n enc_delta enc_handledCPCount] in *.
  rewrite app_nil_r in Hp2. split; [lia|].
  destruct Hs2 as [Hs2|Hs2]; lia.
Qed.

Lemma encode_loop_bounded (codePoints : list Z) (basicLength : Z) (fuel : nat) :
  Forall is_code_point codePoints ->
  Z.of_nat (length codePoints) * 1114112 <= 2147483648 ->
  forall st,
    head_inv codePoints basicLength st ->
    head_bound st ->
    Z.of_nat (length codePoints) - enc_handledCPCount st <= Z.of_nat fuel ->
    exists output, encode_loop fuel codePoints basicLength st = Ok output.
Proof.
  intros Hcp Hsmall. induction fuel as [|fuel IH]; intros st Hinv Hbound Hfuel;
    cbn [encode_loop];
    destruct (Z.ltb_spec (enc_handledCPCount st) (Z.of_nat (length codePoints))) as [Hlt|Hge];
    try lia; try (eexists; reflexivity).
  destruct (encode_iteration_bounded codePoints basicLength st Hcp Hsmall Hinv Hbound Hlt)
    as (st' & E & Hinv' & Hbound' & Hgrow).
  rewrite E. cbn [bind]. apply IH; [assumption|assumption|lia].
Qed.

(** The round trip, by cases, for the properties below. *)
Lemma decode_encode_cases (input encoded : jsstring) :
  is_string input = true ->
  encode input = Ok encoded ->
  (decode encoded = Ok input \/ decode encoded = Throw Overflow) /\
  (Z.of_nat (length (ucs2decode input)) <= 1927 -> decode encoded = Ok input).
Proof.
  intros Hs He.
  pose proof (ucs2decode_code_points input Hs) as Hcp.
  pose proof (encode_init_inv _ Hcp) as Hinv.
  pose proof (encode_init_rel _ Hcp) as Hrel.
  destruct (encode_shape input encoded Hs He) as (ds & Hshape & Hds & Hbasic).
  rewrite encode_unfold in He.
  assert (Hout : encoded = enc_output (encode_init (ucs2decode input)) ++ ds).
  { rewrite Hshape. unfold encode_init. cbn [enc_output].
    rewrite encode_basic_spec by exact Hcp. reflexivity. }
  pose proof (encode_loop_sim _ _ _ Hcp _ _ _ _ _ ds Hinv Hrel He Hout) as Hsim.
  change (enc_bias (encode_init (ucs2decode input))) with initialBias in Hsim.
  assert (Hdec : decode encoded
                 = (output <- decode_run ds initialN 0 initialBias
                                (filter (fun c => c <? 128) (ucs2decode input)) ;;
                    fromCodePoint output)).
  { rewrite Hshape. apply decode_of_encoded; [|exact Hds].
    rewrite Forall_forall in *. intros c Hc. apply filter_In in Hc.
    destruct Hc as [Hc Hlt]. apply Z.ltb_lt in Hlt.
    specialize (Hcp c Hc). unfold is_code_point, is_basic in *. lia. }
  rewrite Hdec. destruct Hsim as [[Hov Hbig]|Hok].
  - rewrite Hov. cbn [bind]. split; [right; reflexivity|]. intros Hsmall. lia.
  - rewrite Hok. cbn [bind]. rewrite fromCodePoint_ucs2decode by exact Hs.
    split; [left; reflexivity|reflexivity].
Qed.

Lemma encode_short (input : jsstring) :
  is_string input = true ->
  Z.of_nat (length (ucs2decode input)) <= 1927 ->
  exists encoded, encode input = Ok encoded /\ decode encoded = Ok input.
Proof.
  intros Hs Hlen.
  pose proof (ucs2decode_code_points input Hs) as Hcp.
  pose proof (encode_init_inv _ Hcp) as Hinv.
  destruct (encode_loop_bounded (ucs2decode input) (encode_basicLength (ucs2decode input))
              (length (ucs2decode input)) Hcp) with (st := encode_init (ucs2decode input))
    as (encoded & He).
  - lia.
  - exact Hinv.
  - unfold head_bound, encode_init. cbn [enc_n enc_delta enc_handledCPCount].
    unfold initialN. lia.
  - destruct Hinv as (Hh & _). lia.
  - exists encoded. rewrite encode_unfold. split; [exact He|].
    rewrite <- encode_unfold in He.
    apply (decode_encode_cases input encoded Hs He). exact Hlen.
Qed.

(** X11: on a string of at most 1927 code points [encode] does not throw,
    and [decode] gives the string back. *)
Theorem encode_decode_short (input : jsstring) :
  is_string input = true ->
  Z.of_nat (length (ucs2decode input)) <= 1927 ->
  exists encoded, encode input = Ok encoded /\ decode encoded = Ok input.
Proof. exact (encode_short input). Qed.

Lemma encode_decode_short_witness :
  exists encoded, encode manana = Ok encoded /\ decode encoded = Ok manana.
Proof.
  apply (encode_decode_short manana); [reflexivity|vm_compute; discriminate].
Defined.

(** X12: [encode] is injective on strings of at most 1927 code points: no
    other string has the same encoding. *)
Theorem encode_injective (s1 s2 encoded : jsstring) :
  is_string s1 = true -> is_string s2 = true ->
  Z.of_nat (length (ucs2decode s1)) <= 1927 ->
  encode s1 = Ok encoded -> encode s2 = Ok encoded ->
  s1 = s2.
Proof.
  intros H1 H2 Hlen E1 E2.
  destruct (decode_encode_cases s1 encoded H1 E1) as [_ D1]. specialize (D1 Hlen).
  destruct (decode_encode_cases s2 encoded H2 E2) as [[D2|D2] _]; congruence.
Qed.

Lemma encode_injective_witness : manana = units "ma" ++ [241] ++ units "ana".
Proof.
  apply (encode_injective manana (units "ma" ++ [241] ++ units "ana") (units "maana-pta"));
    try reflexivity.
  vm_compute. discriminate.
Defined.

(** * The domain mapper *)

Lemma mapDomain_labels_In (domain l : jsstring) (u : Z) :
  In l (mapDomain_labels domain) -> In u l -> In u domain.
Proof.
  intros Hl Hu. destruct (mapDomain_domain domain) as [_ Hsub].
  unfold mapDomain_labels in Hl.
  set (d := if (1 <? length (split 64 domain))%nat then _ else _) in *.
  pose proof (split_parts 46 (replaceSeparators d)) as Hparts.
  rewrite Forall_forall in Hparts. specialize (Hparts l Hl).
  pose proof (split_In 46 _ l Hl u Hu) as Hin.
  apply replaceSeparators_In in Hin. destruct Hin as [->|Hin]; [contradiction|auto].
Qed.

Lemma mapDomain_decompose (y : jsstring) :
  (length (split 64 y) <= 2)%nat ->
  Forall (fun u => isSeparator u = true -> u = 46) y ->
  y = mapDomain_result y ++ join 46 (mapDomain_labels y).
Proof.
  intros Hat Hsep. unfold mapDomain_result, mapDomain_labels.
  pose proof (join_split 64 y) as Hjoin.
  pose proof (split_In 64 y) as Hin.
  destruct (split 64 y) as [|p0 [|d [|p2 rest]]]; cbn [length] in Hat; try lia;
    cbn [length Nat.ltb Nat.leb nth].
  - cbn [app]. rewrite replaceSeparators_id by exact Hsep. symmetry. apply join_split.
  - cbn [app]. rewrite replaceSeparators_id by exact Hsep. symmetry. apply join_split.
  - rewrite replaceSeparators_id.
    + rewrite join_split, <- app_assoc. symmetry. exact Hjoin.
    + rewrite Forall_forall in *. intros u Hu. apply Hsep.
      apply (Hin d); [right; left; reflexivity|exact Hu].
Qed.

Lemma mapDomain_at (local domain : jsstring) (callback : jsstring -> outcome jsstring) :
  ~ In 64 local -> ~ In 64 domain ->
  mapDomain (local ++ 64 :: domain) callback
  = (mapped <- mapDomain domain callback ;; Ok (local ++ 64 :: mapped)).
Proof.
  intros Hl Hd. unfold mapDomain, mapDomain_result, mapDomain_labels.
  rewrite split_app by exact Hl. rewrite !(split_absent 64 domain) by exact Hd.
  cbn [length Nat.ltb Nat.leb nth].
  destruct (map_throwing callback (split 46 (replaceSeparators domain))); cbn [bind app];
    try reflexivity.
  rewrite <- app_assoc. reflexivity.
Qed.

(** X13: with one [@] in the input, [toASCII] and [toUnicode] hand the part
    before the [@] back as it is, whatever it holds, and map the part after
    it as they map a domain alone. *)
Theorem facade_local_part (unicodeToLowerCase : jsstring -> jsstring)
  (local domain : jsstring) :
  ~ In 64 local -> ~ In 64 domain ->
  toASCII (local ++ 64 :: domain)
  = (mapped <- toASCII domain ;; Ok (local ++ 64 :: mapped)) /\
  toUnicode unicodeToLowerCase (local ++ 64 :: domain)
  = (mapped <- toUnicode unicodeToLowerCase domain ;; Ok (local ++ 64 :: mapped)).
Proof.
  intros Hl Hd. split; apply mapDomain_at; assumption.
Qed.

Lemma facade_local_part_witness :
  toASCII ([252] ++ 64 :: manana_com)
  = (mapped <- toASCII manana_com ;; Ok ([252] ++ 64 :: mapped)) /\
  toUnicode (fun s => s) ([252] ++ 64 :: manana_com)
  = (mapped <- toUnicode (fun s => s) manana_com ;; Ok ([252] ++ 64 :: mapped)).
Proof.
  apply (facade_local_part (fun s => s) [252] manana_com).
  - cbn. intros [H|[]]. discriminate H.
  - vm_compute. intros H.
    repeat (destruct H as [H|H]; [discriminate H|]). exact H.
Defined.




(** * What [toASCII] returns *)

(** X15: what [toASCII] returns is the part of the input before the first
    [@], with that [@], and then ASCII only, without a further [@]: a
    result for an input without [@] is pure ASCII. *)
Theorem toASCII_output (input output : jsstring) :
  is_string input = true ->
  toASCII input = Ok output ->
  exists mapped,
    output = mapDomain_result input ++ mapped /\
    Forall is_basic mapped /\ ~ In 64 mapped.
Proof.
  intros Hs H. unfold toASCII in H. apply mapDomain_ok in H.
  destruct H as (outs & Hall & ->).
  exists (join 46 outs). split; [reflexivity|].
  pose proof (mapDomain_labels_units input Hs) as Hlabels.
  assert (Houts : Forall (fun o => Forall is_basic o /\ ~ In 46 o /\ ~ In 64 o) outs).
  { induction Hall as [|l o ls os Hlo _ IH]; [constructor|].
    inversion Hlabels as [|? ? (H1 & H2 & H3) Hrest]; subst.
    constructor; [|apply IH; exact Hrest].
    apply (toASCII_label_out l o); assumption. }
  rewrite Forall_forall in Houts. split.
  - rewrite Forall_forall. intros u Hu. apply join_In in Hu.
    destruct Hu as [->|(p & Hp & Hu)]; [unfold is_basic; lia|].
    destruct (Houts p Hp) as (Hb & _). rewrite Forall_forall in Hb. auto.
  - intros Hu. apply join_In in Hu.
    destruct Hu as [Hu|(p & Hp & Hu)]; [lia|].
    destruct (Houts p Hp) as (_ & _ & H64). contradiction.
Qed.

Lemma toASCII_output_witness :
  exists mapped,
    units "user@xn--faade-zra.com" = mapDomain_result user_facade_com ++ mapped /\
    Forall is_basic mapped /\ ~ In 64 mapped.
Proof.
  apply (toASCII_output user_facade_com (units "user@xn--faade-zra.com")); reflexivity.
Defined.

Lemma mapDomain_identity (callback : jsstring -> outcome jsstring) (y : jsstring) :
  (length (split 64 y) <= 2)%nat ->
  Forall (fun u => isSeparator u = true -> u = 46) y ->
  Forall (fun l => callback l = Ok l) (mapDomain_labels y) ->
  mapDomain y callback = Ok y.
Proof.
  intros Hat Hsep Hlabels. apply mapDomain_ok. exists (mapDomain_labels y). split.
  - clear -Hlabels. induction Hlabels; constructor; assumption.
  - apply mapDomain_decompose; assumption.
Qed.

(** X16: [toASCII] returns an ASCII input as it is, when the input has at
    most one [@]. *)
Theorem toASCII_ascii (input : jsstring) :
  Forall is_basic input ->
  (length (split 64 input) <= 2)%nat ->
  toASCII input = Ok input.
Proof.
  intros Hb Hat. apply mapDomain_identity; [exact Hat| |].
  - eapply Forall_impl; [|exact Hb]. intros u Hu. apply isSeparator_basic. exact Hu.
  - rewrite Forall_forall in *. intros l Hl. unfold toASCII_label.
    replace (regexNonASCII_test l) with false; [reflexivity|].
    symmetry. apply regexNonASCII_test_false. rewrite Forall_forall.
    intros u Hu. apply Hb. exact (mapDomain_labels_In input l u Hl Hu).
Qed.

Lemma toASCII_ascii_witness :
  toASCII (units "user@xn--6qq79v.com") = Ok (units "user@xn--6qq79v.com").
Proof.
  apply (toASCII_ascii (units "user@xn--6qq79v.com")).
  - repeat constructor; unfold is_basic; cbn; lia.
  - vm_compute. lia.
Defined.

(** * [toUnicode] after [toASCII] *)

Lemma asciiLower_id (s : jsstring) :
  Forall (fun u => ~ is_upper_unit u) s -> map asciiLower s = s.
Proof.
  induction 1 as [|u s Hu _ IH]; [reflexivity|].
  cbn [map]. rewrite IH. f_equal. unfold asciiLower, is_upper_unit in *.
  destruct (Z.leb_spec 65 u), (Z.leb_spec u 90); cbn [andb]; lia.
Qed.

Lemma encode_no_upper (label encoded : jsstring) :
  is_string label = true ->
  Forall (fun u => ~ is_upper_unit u) label ->
  encode label = Ok encoded ->
  Forall (fun u => ~ is_upper_unit u) encoded.
Proof.
  intros Hs Hup He.
  destruct (encode_shape label encoded Hs He) as (ds & -> & Hds & _).
  rewrite Forall_forall in *. intros u Hu.
  apply in_app_or in Hu. destruct Hu as [Hu|Hu].
  - assert (Hu' : In u (filter (fun c => c <? 128) (ucs2decode label)) \/ u = delimiter).
    { destruct (_ >? 0); [|auto]. apply in_app_or in Hu.
      destruct Hu as [Hu|[Hu|[]]]; auto. }
    destruct Hu' as [Hu'| ->]; [|unfold is_upper_unit, delimiter; lia].
    apply filter_In in Hu'. destruct Hu' as [Hu' Hlt]. apply Z.ltb_lt in Hlt.
    apply ucs2decode_In in Hu'. destruct Hu' as [Hu'|Hu']; [auto|lia].
  - specialize (Hds u Hu). unfold is_digit_unit, is_upper_unit in *. lia.
Qed.

Lemma label_roundtrip (unicodeToLowerCase : jsstring -> jsstring) (label : jsstring) :
  is_string label = true ->
  roundtrip_label label ->
  exists out,
    toASCII_label label = Ok out /\
    toUnicode_label unicodeToLowerCase out = Ok label.
Proof.
  intros Hs [[Hb Hxn]|(Hna & Hup & Hlen)].
  - exists label. unfold toASCII_label, toUnicode_label.
    apply regexNonASCII_test_false in Hb. rewrite Hb, Hxn. split; reflexivity.
  - destruct (encode_short label Hs Hlen) as (e & He & Hd).
    exists (xn_prefix ++ e). unfold toASCII_label. rewrite Hna, He. cbn [bind].
    split; [reflexivity|].
    unfold toUnicode_label, xn_prefix. cbn [app regexPunycode_test slice4 skipn].
    rewrite !Z.eqb_refl. cbn [andb]. unfold toLowerCase.
    destruct (encode_shape label e Hs He) as (_ & _ & _ & Hbasic).
    apply regexNonASCII_test_false in Hbasic. rewrite Hbasic.
    rewrite (asciiLower_id e (encode_no_upper label e Hs Hup He)). exact Hd.
Qed.

(** X17: [toUnicode] undoes [toASCII].  For a string with at most one [@],
    [.] as its only separator, and whose labels are each either ASCII not
    starting with [xn--], or hold a unit above 0x7F, no upper-case ASCII
    letter and at most 1927 code points: [toASCII] returns a text that is
    ASCII after the part before the [@], and [toUnicode] of that text is the
    string again. *)
Theorem toUnicode_toASCII (unicodeToLowerCase : jsstring -> jsstring) (input : jsstring) :
  is_string input = true ->
  (length (split 64 input) <= 2)%nat ->
  Forall (fun u => isSeparator u = true -> u = 46) input ->
  Forall roundtrip_label (mapDomain_labels input) ->
  exists ascii,
    toASCII input = Ok ascii /\
    Forall is_basic (skipn (length (mapDomain_result input)) ascii) /\
    toUnicode unicodeToLowerCase ascii = Ok input.
Proof.
  intros Hs Hat Hsep Hrt.
  pose proof (mapDomain_labels_units input Hs) as Hlabels.
  assert (Houts : exists outs,
             Forall2 (fun l o => toASCII_label l = Ok o) (mapDomain_labels input) outs /\
             Forall2 (fun o l => toUnicode_label unicodeToLowerCase o = Ok l)
                     outs (mapDomain_labels input)).
  { clear -Hrt Hlabels. induction Hrt as [|l ls Hl _ IH].
    - exists []. split; constructor.
    - inversion Hlabels as [|? ? (H1 & _) Hrest]; subst.
      destruct (IH Hrest) as (outs & Ha & Hu).
      destruct (label_roundtrip unicodeToLowerCase l H1 Hl) as (o & Ho & Ho').
      exists (o :: outs). split; constructor; assumption. }
  destruct Houts as (outs & Ha & Hu).
  assert (Hne : outs <> []).
  { apply (Forall2_nonempty _ _ _ Ha). apply split_nonempty. }
  assert (Hshape : Forall (fun o => Forall is_basic o /\ ~ In 46 o /\ ~ In 64 o) outs).
  { clear -Ha Hlabels. induction Ha as [|l o ls os Hlo _ IH]; [constructor|].
    inversion Hlabels as [|? ? (H1 & H2 & H3) Hrest]; subst.
    constructor; [|apply IH; exact Hrest].
    apply (toASCII_label_out l o); assumption. }
  destruct (mapDomain_rejoined (mapDomain_result input) outs Hne
              (mapDomain_result_shape input)) as [Hres Hlab].
  { eapply Forall_impl; [|exact Hshape]. intros o (H1 & H2 & H3).
    split; [exact H3|]. split; [exact H2|].
    eapply Forall_impl; [|exact H1]. intros u. apply isSeparator_basic. }
  exists (mapDomain_result input ++ join 46 outs). split; [|split].
  - apply mapDomain_ok. exists outs. split; [exact Ha|reflexivity].
  - rewrite skipn_app, skipn_all, Nat.sub_diag. cbn [app skipn].
    rewrite Forall_forall in *. intros u Hin. apply join_In in Hin.
    destruct Hin as [->|(p & Hp & Hin)]; [unfold is_basic; lia|].
    destruct (Hshape p Hp) as (Hb & _). rewrite Forall_forall in Hb. auto.
  - apply mapDomain_ok. exists (mapDomain_labels input). rewrite Hres, Hlab.
    split; [exact Hu|]. apply mapDomain_decompose; assumption.
Qed.

Lemma toUnicode_toASCII_witness :
  exists ascii,
    toASCII user_facade_com = Ok ascii /\
    Forall is_basic (skipn (length (mapDomain_result user_facade_com)) ascii) /\
    toUnicode (fun s => s) ascii = Ok user_facade_com.
Proof.
  apply (toUnicode_toASCII (fun s => s) user_facade_com).
  - reflexivity.
  - vm_compute. lia.
  - repeat constructor; vm_compute; discriminate.
  - vm_compute mapDomain_labels. constructor; [|constructor; [|constructor]].
    + right. split; [reflexivity|]. split; [|vm_compute; discriminate].
      repeat constructor; unfold is_upper_unit; lia.
    + left. split; [|reflexivity]. repeat constructor; unfold is_basic; lia.
Defined.

(** * How [encode] and [toASCII] fail *)

Lemma map_throwing_overflow {A B : Type} (callback : A -> outcome B) (l : list A) :
  (forall a, In a l -> callback a = Throw Overflow \/ exists b, callback a = Ok b) ->
  map_throwing callback l = Throw Overflow \/ exists bs, map_throwing callback l = Ok bs.
Proof.
  induction l as [|a l IH]; intros H; cbn [map_throwing].
  - right. exists []. reflexivity.
  - destruct (H a (or_introl eq_refl)) as [->|(b & ->)]; cbn [bind]; [left; reflexivity|].
    destruct IH as [->|(bs & ->)]; cbn [bind].
    + intros a' Ha'. apply H. right. exact Ha'.
    + left. reflexivity.
    + right. exists (b :: bs). reflexivity.
Qed.

(** X18: on a string, [encode] and [toASCII] each return a result or throw
    the overflow error: they throw nothing else, and they do return or
    throw. *)
Theorem toASCII_fails_with_overflow (input : jsstring) :
  is_string input = true ->
  (encode input = Throw Overflow \/ exists output, encode input = Ok output) /\
  (toASCII input = Throw Overflow \/ exists output, toASCII input = Ok output).
Proof.
  intros Hs. split.
  - destruct (encode_outcome input Hs) as [E|(ds & E & _)]; eauto.
  - unfold toASCII, mapDomain.
    pose proof (mapDomain_labels_units input Hs) as Hlabels.
    rewrite Forall_forall in Hlabels.
    destruct (map_throwing_overflow toASCII_label (mapDomain_labels input)) as [->|(outs & ->)];
      cbn [bind].
    + intros l Hl. destruct (Hlabels l Hl) as (Hsl & _). unfold toASCII_label.
      destruct (regexNonASCII_test l); [|right; eauto].
      destruct (encode_outcome l Hsl) as [->|(ds & -> & _)]; cbn [bind]; eauto.
    + left. reflexivity.
    + right. eauto.
Qed.

Lemma toASCII_fails_with_overflow_witness :
  (encode too_long_input = Throw Overflow \/
   exists output, encode too_long_input = Ok output) /\
  (toASCII too_long_input = Throw Overflow \/
   exists output, toASCII too_long_input = Ok output).
Proof.
  apply (toASCII_fails_with_overflow too_long_input). reflexivity.
Defined.
